(** * Settings inheritance ([IInheritable.h]) — a shallow embedding

    The header [src/cascadia/TerminalSettingsModel/IInheritable.h] declares
    - [IInheritable<T>]: a settings object with an ordered vector
      [_parents] of shared pointers ([com_ptr<T>]) to other settings
      objects, with [CreateChild] and the two [InsertParent] overloads;
    - [NullableSetting<T>]: a pair of an [IReference<T>] and a flag;
    - the macros [GETSET_SETTING] and [GETSET_NULLABLE_SETTING], which
      generate, per declared setting name, the accessors [Has##name],
      [name()], [name(value)], [Clear##name] and the private recursive
      resolver [_get##name##Impl].

    Objects are shared through pointers and are mutated in place, so the
    model keeps them in a store: a finite map from pointer identities to
    object states.  Every method takes the receiver's pointer and the store. *)

From stdpp Require Import gmap strings list fin_maps fin_sets relations.

Set Default Proof Using "Type".

(** ** Outcomes of a call

    A C++ call returns, throws, has no defined behaviour, or does not
    return.  The last case is the one a recursion bound of the model runs
    into ([OutOfFuel]). *)

Inductive exception := out_of_range.

Inductive result (A : Type) : Type :=
  | Ok (a : A)
  | Raise (e : exception)
  | Undefined
  | OutOfFuel.

Arguments Ok {A} a.
Arguments Raise {A} e.
Arguments Undefined {A}.
Arguments OutOfFuel {A}.

Definition rbind {A B : Type} (m : result A) (k : A → result B) : result B :=
  match m with
  | Ok a => k a
  | Raise e => Raise e
  | Undefined => Undefined
  | OutOfFuel => OutOfFuel
  end.

Definition rmap {A B : Type} (f : A → B) (m : result A) : result B :=
  rbind m (λ a, Ok (f a)).

Notation "x ←r m ; k" := (rbind m (λ x, k))
  (at level 20, m at level 100, k at level 200, right associativity,
   format "x  ←r  m ;  '/' k").

Definition terminates {A : Type} (m : result A) : Prop := m ≠ OutOfFuel.

(** ** Data model *)

(** A [com_ptr<T>] is the identity of an object in the store, a
    [positive]; the [name] argument of the two macros is a [string]. *)

Section Inheritable.

(** The [type] argument of the macros. *)
Context {V : Type}.

(** [struct NullableSetting]: [IReference<T> setting{ nullptr }] and
    [bool set{ false }]. *)
Record NullableSetting : Type := mkNullable {
  setting : option V;
  set : bool;
}.

Definition NullableSetting_init : NullableSetting :=
  {| setting := None; set := false |}.

(** The state of one object of type [T]:
    - [_parents]: the vector of [IInheritable<T>];
    - [_settings]: the members [std::optional<type> _##name] declared with
      [GETSET_SETTING], by name; a name that is not bound holds
      [std::nullopt];
    - [_nullables]: the members [NullableSetting<type> _##name] declared
      with [GETSET_NULLABLE_SETTING], by name; a name that is not bound
      holds the initial [{ nullptr, false }]. *)
Record object : Type := mkObject {
  _parents : list positive;
  _settings : gmap string V;
  _nullables : gmap string NullableSetting;
}.

(** [winrt::make_self<T>()]: every member at its initializer. *)
Definition make_self : object :=
  {| _parents := []; _settings := ∅; _nullables := ∅ |}.

Definition with_parents (ps : list positive) (o : object) : object :=
  {| _parents := ps; _settings := _settings o; _nullables := _nullables o |}.

Definition with_setting (name : string) (v : option V) (o : object) : object :=
  {| _parents := _parents o;
     _settings := match v with
                  | Some x => <[name := x]> (_settings o)
                  | None => delete name (_settings o)
                  end;
     _nullables := _nullables o |}.

Definition with_nullable (name : string) (s : NullableSetting) (o : object)
  : object :=
  {| _parents := _parents o;
     _settings := _settings o;
     _nullables := <[name := s]> (_nullables o) |}.

(** Reading the member [_##name]. *)
Definition setting_of (o : object) (name : string) : option V :=
  _settings o !! name.

Definition nullable_of (o : object) (name : string) : NullableSetting :=
  default NullableSetting_init (_nullables o !! name).

(** Calling a method through a pointer that refers to no object has no
    defined behaviour. *)
Definition deref (h : gmap positive object) (p : positive) : result object :=
  match h !! p with
  | Some o => Ok o
  | None => Undefined
  end.

(** A method that only writes its receiver. *)
Definition update (h : gmap positive object) (p : positive)
    (f : object → result object) : result (gmap positive object) :=
  o ←r deref h p; o' ←r f o; Ok (<[p := o']> h).

End Inheritable.

Arguments NullableSetting V : clear implicits.
Arguments object V : clear implicits.

(** [IReference<type>]: a reference that is null ([None]) or boxes a value. *)
Abbreviation IReference V := (option V).

(** The store: the objects that exist, by identity. *)
Abbreviation store V := (gmap positive (object V)).

(** ** [struct IInheritable] *)

Module IInheritable.
Section Methods.
Context {V : Type}.

(** [virtual void _FinalizeInheritance()]: run on the child, which may
    read and write whatever it can reach.  The body in the header is
    empty. *)
Variable _FinalizeInheritance : positive → store V → result (store V).

Definition _FinalizeInheritance_default
  : positive → store V → result (store V) := λ _ h, Ok h.

(** [void InsertParent(com_ptr<T> parent)]: [_parents.push_back(parent)]. *)
Definition InsertParent (h : store V) (this parent : positive)
  : result (store V) :=
  update h this (λ o, Ok (with_parents (_parents o ++ [parent]) o)).

(** [void InsertParent(size_t index, com_ptr<T> parent)]:
    [_parents.insert(_parents.begin() + index, parent)].
    The method compares [index] with nothing.  An iterator
    [begin() + index] exists for [index <= size()] only, and
    [std::vector::insert] shifts the elements from that position on by
    one; for a larger [index] the iterator arithmetic has no defined
    behaviour, and no exception is thrown. *)
Definition InsertParent_at (h : store V) (this : positive) (index : nat)
    (parent : positive) : result (store V) :=
  update h this (λ o,
    if decide (index ≤ length (_parents o))
    then Ok (with_parents
               (take index (_parents o) ++ parent :: drop index (_parents o)) o)
    else Undefined).

(** [com_ptr<T> CreateChild() const]. *)
Definition CreateChild (h : store V) (this : positive)
  : result (positive * store V) :=
  _ ←r deref h this;
  let child := fresh (dom h) in
  let h1 := <[child := make_self]> h in
  h2 ←r InsertParent h1 child this;
  h3 ←r _FinalizeInheritance child h2;
  Ok (child, h3).

End Methods.
End IInheritable.

(** ** [GETSET_SETTING(type, name, ...)] *)

Module Setting.
Section Accessors.
Context {V : Type}.

(** [bool Has##name() const]: [_##name.has_value()]. *)
Definition Has (h : store V) (name : string) (this : positive)
  : result bool :=
  o ←r deref h this;
  Ok (match setting_of o name with Some _ => true | None => false end).

(** The loop [for (auto parent : _parents)] of [_get##name##Impl], over
    the recursive call [rec]. *)
Fixpoint _getImpl_parents (rec : positive → result (option V))
    (parents : list positive) : result (option V) :=
  match parents with
  | [] => Ok None
  | parent :: rest =>
      val ←r rec parent;
      match val with
      | Some v => Ok (Some v)
      | None => _getImpl_parents rec rest
      end
  end.

(** [std::optional<type> _get##name##Impl() const].  The recursion of the
    source has no bound; [fuel] bounds its depth here. *)
Fixpoint _getImpl (fuel : nat) (h : store V) (name : string)
    (this : positive) : result (option V) :=
  match fuel with
  | O => OutOfFuel
  | S fuel' =>
      o ←r deref h this;
      match setting_of o name with
      | Some v => Ok (Some v)
      | None => _getImpl_parents (_getImpl fuel' h name) (_parents o)
      end
  end.

(** [type name() const]: [val ? *val : type{ __VA_ARGS__ }]; [dflt] is
    the value of [type{ __VA_ARGS__ }]. *)
Definition Getter (dflt : V) (fuel : nat) (h : store V) (name : string)
    (this : positive) : result V :=
  val ←r _getImpl fuel h name this;
  Ok (match val with Some v => v | None => dflt end).

(** [void name(const type& value)]: [_##name = value]. *)
Definition Setter (h : store V) (name : string) (this : positive)
    (value : V) : result (store V) :=
  update h this (λ o, Ok (with_setting name (Some value) o)).

(** [void Clear##name()]: [_##name = std::nullopt]. *)
Definition Clear (h : store V) (name : string) (this : positive)
  : result (store V) :=
  update h this (λ o, Ok (with_setting name None o)).

End Accessors.
End Setting.

(** ** [GETSET_NULLABLE_SETTING(type, name, ...)] *)

Module Nullable.
Section Accessors.
Context {V : Type} `{EqDecision V}.

(** [bool Has##name() const]: [_##name.set]. *)
Definition Has (h : store V) (name : string) (this : positive)
  : result bool :=
  o ←r deref h this;
  Ok (set (nullable_of o name)).

(** The loop [for (auto parent : _parents)] of [_get##name##Impl]. *)
Fixpoint _getImpl_parents (rec : positive → result (NullableSetting V))
    (parents : list positive) : result (NullableSetting V) :=
  match parents with
  | [] => Ok {| setting := None; set := false |}
  | parent :: rest =>
      val ←r rec parent;
      if set val then Ok val else _getImpl_parents rec rest
  end.

(** [NullableSetting<type> _get##name##Impl() const]. *)
Fixpoint _getImpl (fuel : nat) (h : store V) (name : string)
    (this : positive) : result (NullableSetting V) :=
  match fuel with
  | O => OutOfFuel
  | S fuel' =>
      o ←r deref h this;
      if set (nullable_of o name)
      then Ok (nullable_of o name)
      else _getImpl_parents (_getImpl fuel' h name) (_parents o)
  end.

(** [IReference<type> name() const]:
    [val.set ? val.setting : IReference<type>{ __VA_ARGS__ }]. *)
Definition Getter (dflt : IReference V) (fuel : nat) (h : store V)
    (name : string) (this : positive) : result (IReference V) :=
  val ←r _getImpl fuel h name this;
  Ok (if set val then setting val else dflt).

(** [void name(const IReference<type>& value)]: the two assignments run
    when the setting was not set or [_##name.setting != value].  The
    comparison of the two references is decided on what they hold. *)
Definition Setter (h : store V) (name : string) (this : positive)
    (value : IReference V) : result (store V) :=
  update h this (λ o,
    if negb (set (nullable_of o name))
       || negb (bool_decide (setting (nullable_of o name) = value))
    then Ok (with_nullable name {| setting := value; set := true |} o)
    else Ok o).

(** [void Clear##name()]: [_##name.set = false]. *)
Definition Clear (h : store V) (name : string) (this : positive)
  : result (store V) :=
  update h this (λ o,
    Ok (with_nullable name
          {| setting := setting (nullable_of o name); set := false |} o)).

End Accessors.
End Nullable.

(** ** The parent graph and the search order, for the proofs *)

Section Graph.
Context {V : Type}.

(** [parent_of h p q]: the object at [p] lists [q] among its parents. *)
Definition parent_of (h : store V) (p q : positive) : Prop :=
  ∃ o, h !! p = Some o ∧ q ∈ _parents o.

(** [q] is [p] itself or one of its ancestors. *)
Definition ancestor_or_self (h : store V) (p q : positive) : Prop :=
  rtc (parent_of h) p q.

(** The part of the parent graph that [p] reaches has no cycle. *)
Definition acyclic_from (h : store V) (p : positive) : Prop :=
  ∀ q, ancestor_or_self h p q → ¬ tc (parent_of h) q q.

(** The whole parent graph has no cycle. *)
Definition acyclic (h : store V) : Prop :=
  ∀ q, ¬ tc (parent_of h) q q.

(** Every pointer that [p] reaches, [p] included, refers to an object. *)
Definition closed_from (h : store V) (p : positive) : Prop :=
  ∀ q, ancestor_or_self h p q → is_Some (h !! q).

(** The search shared by the two resolvers: [own] reads the explicit
    value of one object, if it has one; the parents are searched in order,
    each one to the end of its own ancestry before the next. *)
Context {R : Type} (own : object V → option R).

Fixpoint walk_parents (rec : positive → result (option R))
    (parents : list positive) : result (option R) :=
  match parents with
  | [] => Ok None
  | parent :: rest =>
      val ←r rec parent;
      match val with
      | Some v => Ok (Some v)
      | None => walk_parents rec rest
      end
  end.

Fixpoint walk (fuel : nat) (h : store V) (this : positive)
  : result (option R) :=
  match fuel with
  | O => OutOfFuel
  | S fuel' =>
      o ←r deref h this;
      match own o with
      | Some v => Ok (Some v)
      | None => walk_parents (walk fuel' h) (_parents o)
      end
  end.

(** A depth of recursion that the search cannot exceed in a graph
    without cycles: one more than the number of objects. *)
Definition enough (h : store V) : nat := S (size (dom h)).

(** Following the glossary of the specification ("resolution chain: the
    depth-first, parent-order sequence of nodes consulted"): the node,
    then the chain of each parent in list order, to depth [fuel]. *)
Fixpoint chain (fuel : nat) (h : store V) (this : positive)
  : list positive :=
  match fuel with
  | O => []
  | S fuel' =>
      this :: match h !! this with
              | Some o => _parents o ≫= chain fuel' h
              | None => []
              end
  end.

Definition resolution_chain (h : store V) (this : positive) : list positive :=
  chain (enough h) h this.

(** The explicit value of the object at [q], if there is one. *)
Definition explicit (h : store V) (q : positive) : option R :=
  match h !! q with
  | Some o => own o
  | None => None
  end.

End Graph.

(** What [Nullable._getImpl] takes for an explicit value of an object. *)
Definition own_nullable {V : Type} (name : string) (o : object V)
  : option (NullableSetting V) :=
  if set (nullable_of o name) then Some (nullable_of o name) else None.

(** What the nullable resolver returns for a search result: the setting
    found, or [{ nullptr, false }]. *)
Definition found_or_init {V : Type} (r : option (NullableSetting V))
  : NullableSetting V :=
  default {| setting := None; set := false |} r.

(** Following the words of the specification: the first node of a list,
    in list order, whose resolution [resolved] yields a value wins;
    [None] when none does. *)
Fixpoint first_resolving {R : Type} (resolved : positive → option R)
    (parents : list positive) : option R :=
  match parents with
  | [] => None
  | parent :: rest =>
      match resolved parent with
      | Some v => Some v
      | None => first_resolving resolved rest
      end
  end.

(** Two stores that an observer of the nullable setting [name] cannot
    tell apart: the same objects with the same parents, the same flag,
    and the same stored reference wherever the flag is raised. *)
Definition same_explicit {V : Type} (name : string) (h1 h2 : store V)
  : Prop :=
  ∀ p, match h1 !! p, h2 !! p with
       | Some o1, Some o2 =>
           _parents o1 = _parents o2 ∧ own_nullable name o1 = own_nullable name o2
       | None, None => True
       | _, _ => False
       end.

(** What each resolver yields at [q] once the recursion is deep enough
    ([None]: no value found). *)
Definition Setting_resolve {V : Type} (h : store V) (name : string)
    (q : positive) : option V :=
  match Setting._getImpl (enough h) h name q with
  | Ok r => r
  | _ => None
  end.

Definition Nullable_resolve {V : Type} (h : store V) (name : string)
    (q : positive) : option (IReference V) :=
  match Nullable._getImpl (enough h) h name q with
  | Ok r => if set r then Some (setting r) else None
  | _ => None
  end.

(** The hook leaves the object at [p] as it found it. *)
Definition hook_preserves {V : Type}
    (hook : positive → store V → result (store V)) (p : positive) : Prop :=
  ∀ child h h', hook child h = Ok h' → h' !! p = h !! p.

(** What [Setting._getImpl] takes for an explicit value of an object. *)
Definition own_setting {V : Type} (name : string) (o : object V) : option V :=
  setting_of o name.

(** Two checkable conditions on a store: every parent pointer is smaller
    than the pointer of the object that holds it, and every parent pointer
    refers to an object. *)
Definition parents_below {V : Type} (h : store V) : Prop :=
  map_Forall (λ p o, Forall (λ q, (q < p)%positive) (_parents o)) h.

Definition parents_allocated {V : Type} (h : store V) : Prop :=
  map_Forall (λ _ o, Forall (λ q, is_Some (h !! q)) (_parents o)) h.

#[global] Instance parents_below_dec {V : Type} (h : store V) :
  Decision (parents_below h).
Proof. unfold parents_below. apply _. Defined.

#[global] Instance parents_allocated_dec {V : Type} (h : store V) :
  Decision (parents_allocated h).
Proof. unfold parents_allocated. apply _. Defined.

(** One call of a writing accessor of the setting [name] on the object at
    [this] takes the store [h] to [h']. *)
Definition accessor_write {V : Type} `{EqDecision V} (name : string)
    (this : positive) (h h' : store V) : Prop :=
  (∃ v, Setting.Setter h name this v = Ok h')
  ∨ Setting.Clear h name this = Ok h'
  ∨ (∃ r, Nullable.Setter h name this r = Ok h')
  ∨ Nullable.Clear h name this = Ok h'.

(** ** Example stores *)

(** One object, at 1, with two parents. *)
Definition two_parents : store nat :=
  {[ 1%positive := mkObject [2%positive; 3%positive] ∅ ∅ ]}.

(** Layers: a root (1) under two objects A (2) and B (3), which are the
    parents, in this order, of N (4).  The setting [P] is set on the root,
    on A and on B; the nullable setting [Q] is set on the root and on B,
    and set to null on A.  N sets neither. *)
Definition layered : store nat :=
  <[ 4%positive := mkObject [2%positive; 3%positive] ∅ ∅ ]>
  (<[ 3%positive := mkObject [1%positive] {[ "P" := 30 ]}
                     {[ "Q" := mkNullable (Some 3) true ]} ]>
  (<[ 2%positive := mkObject [1%positive] {[ "P" := 20 ]}
                     {[ "Q" := mkNullable None true ]} ]>
  {[ 1%positive := mkObject [] {[ "P" := 10 ]}
                     {[ "Q" := mkNullable (Some 1) true ]} ]})).

(** A chain Root (1), Mid (2), Leaf (3); only the root sets [P]; the
    leaf holds a stale reference for [Q] with the flag down. *)
Definition chain3 : store nat :=
  <[ 3%positive := mkObject [2%positive] ∅
                     {[ "Q" := mkNullable (Some 5) false ]} ]>
  (<[ 2%positive := mkObject [1%positive] ∅ ∅ ]>
  {[ 1%positive := mkObject [] {[ "P" := 10 ]} ∅ ]}).

(** An object that is its own parent. *)
Definition self_parent : store nat :=
  {[ 1%positive := mkObject [1%positive] ∅ ∅ ]}.

(** ** Facts about outcomes *)

Lemma rbind_Ok_inv {A B : Type} (m : result A) (k : A → result B) (b : B) :
  rbind m k = Ok b → ∃ a, m = Ok a ∧ k a = Ok b.
Proof. destruct m; simpl; intros E; try discriminate. eauto. Qed.

Lemma deref_Some {V : Type} (h : store V) (p : positive) (o : object V) :
  h !! p = Some o → deref h p = Ok o.
Proof. unfold deref. by intros ->. Qed.

Lemma update_Some {V : Type} (h : store V) (p : positive) (o o' : object V)
    (f : object V → result (object V)) :
  h !! p = Some o → f o = Ok o' → update h p f = Ok (<[p := o']> h).
Proof. intros Hp Hf. unfold update. rewrite (deref_Some _ _ _ Hp). simpl. by rewrite Hf. Qed.

(** ** Facts about the search *)

Section WalkFacts.
Context {V R : Type} (own : object V → option R).
Implicit Types (h : store V) (rec : positive → result (option R)).

Lemma walk_parents_first rec before p after v :
  (∀ q, q ∈ before → rec q = Ok None) →
  rec p = Ok (Some v) →
  walk_parents rec (before ++ p :: after) = Ok (Some v).
Proof.
  induction before as [|q l IH]; intros Hb Hp; simpl.
  - by rewrite Hp.
  - rewrite (Hb q) by left. simpl. apply IH; [|done].
    intros q' Hq'. apply Hb. by right.
Qed.

Lemma walk_parents_found_inv rec ps v :
  walk_parents rec ps = Ok (Some v) →
  ∃ before p after, ps = before ++ p :: after
    ∧ (∀ q, q ∈ before → rec q = Ok None) ∧ rec p = Ok (Some v).
Proof.
  induction ps as [|q l IH]; simpl; [discriminate|].
  destruct (rec q) as [[w|]| | |] eqn:E; simpl; try discriminate.
  - intros [= ->]. exists [], q, l. split_and!; [done| |done].
    intros q' Hq'. by apply elem_of_nil in Hq'.
  - intros Hl. destruct (IH Hl) as (before & p & after & -> & Hb & Hp).
    exists (q :: before), p, after. split_and!; [done| |done].
    intros q' [->|Hq']%elem_of_cons; auto.
Qed.

Lemma walk_parents_first_resolving rec (resolved : positive → option R) ps :
  (∀ q, q ∈ ps → rec q = Ok (resolved q)) →
  walk_parents rec ps = Ok (first_resolving resolved ps).
Proof.
  induction ps as [|q l IH]; intros Hb; simpl; [done|].
  rewrite (Hb q) by left. simpl. destruct (resolved q); [done|].
  apply IH. intros q' Hq'. apply Hb. by right.
Qed.

Lemma walk_parents_weaken rec rec' ps r :
  (∀ q r', q ∈ ps → rec q = r' → r' ≠ OutOfFuel → rec' q = r') →
  walk_parents rec ps = r → r ≠ OutOfFuel → walk_parents rec' ps = r.
Proof.
  revert r. induction ps as [|q l IH]; intros r Hrec; simpl; [done|].
  destruct (rec q) as [[w|]| | |] eqn:E; simpl; intros <- Hne.
  - by rewrite (Hrec q _ (list_elem_of_here _ _) E).
  - rewrite (Hrec q _ (list_elem_of_here _ _) E) by done. simpl.
    apply IH; [|done|done]. intros q' r' Hq'. apply Hrec. by right.
  - by rewrite (Hrec q _ (list_elem_of_here _ _) E).
  - by rewrite (Hrec q _ (list_elem_of_here _ _) E).
  - done.
Qed.

Lemma walk_parents_ext rec rec' ps :
  (∀ q, q ∈ ps → rec q = rec' q) →
  walk_parents rec ps = walk_parents rec' ps.
Proof.
  induction ps as [|q l IH]; intros Hrec; simpl; [done|].
  rewrite <- (Hrec q) by left. rewrite IH; [done|].
  intros q' Hq'. apply Hrec. by right.
Qed.

(** An outcome of the loop other than a value is the outcome of one of
    the recursive calls. *)
Lemma walk_parents_abnormal rec ps r :
  walk_parents rec ps = r → (∀ x, r ≠ Ok x) → ∃ q, q ∈ ps ∧ rec q = r.
Proof.
  induction ps as [|q l IH]; simpl; intros Hr Hab.
  - by destruct (Hab None).
  - destruct (rec q) as [[w|]| | |] eqn:E; simpl in Hr.
    + by destruct (Hab (Some w)).
    + destruct (IH Hr Hab) as (q' & Hq' & Hq). exists q'. split; [by right|done].
    + exists q. split; [by left|congruence].
    + exists q. split; [by left|congruence].
    + exists q. split; [by left|congruence].
Qed.

(** More fuel does not change an outcome that was reached. *)
Lemma walk_fuel_mono fuel fuel' h this r :
  walk own fuel h this = r → r ≠ OutOfFuel → fuel ≤ fuel' →
  walk own fuel' h this = r.
Proof.
  revert fuel' this r. induction fuel as [|f IH]; intros fuel' this r; simpl.
  - by intros <-.
  - intros Hr Hne Hle. destruct fuel' as [|f']; [lia|]. simpl.
    destruct (deref h this) as [o| | |]; simpl in *; [|done..].
    destruct (own o); [done|].
    eapply walk_parents_weaken; [|exact Hr|done].
    intros q r' _ Hq Hr'. eapply IH; [done|done|lia].
Qed.

(** The search throws nothing. *)
Lemma walk_no_raise fuel h this e : walk own fuel h this ≠ Raise e.
Proof.
  revert this. induction fuel as [|f IH]; intros this; simpl; [done|].
  unfold deref. destruct (h !! this) as [o|]; simpl; [|done].
  destruct (own o); [done|]. intros Hr.
  destruct (walk_parents_abnormal _ _ _ Hr) as (q & _ & Hq); [done|].
  by apply IH in Hq.
Qed.

(** A value that the search returns is the explicit value of the node or
    of one of its ancestors. *)
Lemma walk_sound fuel h this v :
  walk own fuel h this = Ok (Some v) →
  ∃ q o, ancestor_or_self h this q ∧ h !! q = Some o ∧ own o = Some v.
Proof.
  revert this. induction fuel as [|f IH]; intros this; simpl; [done|].
  unfold deref. destruct (h !! this) as [o|] eqn:Ho; simpl; [|done].
  destruct (own o) as [w|] eqn:Hown.
  - intros [= ->]. exists this, o. split_and!; [apply rtc_refl|done|done].
  - intros Hr. apply walk_parents_found_inv in Hr
      as (before & p & after & Hps & _ & Hp).
    destruct (IH _ Hp) as (q & o' & Hq & Ho' & Hown'). exists q, o'.
    split_and!; [|done|done]. eapply rtc_l; [|exact Hq].
    exists o. split; [done|]. rewrite Hps. set_solver.
Qed.

Lemma closed_from_parent h p q :
  closed_from h p → parent_of h p q → closed_from h q.
Proof. intros Hc Hpq q' Hq'. apply Hc. by eapply rtc_l. Qed.

Lemma acyclic_from_parent h p q :
  acyclic_from h p → parent_of h p q → acyclic_from h q.
Proof. intros Hc Hpq q' Hq'. apply Hc. by eapply rtc_l. Qed.

Lemma acyclic_acyclic_from h p : acyclic h → acyclic_from h p.
Proof. intros Ha q _. apply Ha. Qed.

(** In a closed graph the search dereferences objects only. *)
Lemma walk_defined fuel h this :
  closed_from h this → walk own fuel h this ≠ Undefined.
Proof.
  revert this. induction fuel as [|f IH]; intros this Hc; simpl; [done|].
  destruct (Hc this) as [o Ho]; [apply rtc_refl|].
  rewrite (deref_Some _ _ _ Ho). simpl. destruct (own o); [done|]. intros Hr.
  destruct (walk_parents_abnormal _ _ _ Hr) as (q & Hq & Hu); [done|].
  apply IH in Hu; [done|]. eapply closed_from_parent; [done|]. by exists o.
Qed.

(** Termination: the nodes on the current search path are distinct
    objects of the store when no cycle is reachable, so the depth of the
    recursion stays below the number of objects. *)
Lemma walk_terminates_path fuel h this (path : gset positive) :
  acyclic_from h this →
  (∀ q, q ∈ path → tc (parent_of h) q this) →
  path ⊆ dom h →
  size (dom h) < fuel + size path →
  walk own fuel h this ≠ OutOfFuel.
Proof.
  revert this path. induction fuel as [|f IH]; intros this path Hac Hpath Hsub Hsz.
  - apply subseteq_size in Hsub. lia.
  - simpl. unfold deref. destruct (h !! this) as [o|] eqn:Ho; simpl; [|done].
    destruct (own o); [done|]. intros Hr.
    destruct (walk_parents_abnormal _ _ _ Hr) as (q & Hq & Hu); [done|].
    assert (parent_of h this q) as Hpq by by exists o.
    assert (this ∉ path) as Hfresh.
    { intros Hin. apply (Hac this); [apply rtc_refl|]. by apply Hpath. }
    revert Hu. apply (IH q ({[this]} ∪ path)).
    + by eapply acyclic_from_parent.
    + intros q' [->%elem_of_singleton|Hq']%elem_of_union.
      * by apply tc_once.
      * eapply tc_r; [|done]. by apply Hpath.
    + apply union_subseteq. split; [|done].
      apply singleton_subseteq_l. by eapply elem_of_dom_2.
    + rewrite size_union by set_solver. rewrite size_singleton. lia.
Qed.

Lemma walk_terminates h this :
  acyclic_from h this → walk own (S (size (dom h))) h this ≠ OutOfFuel.
Proof.
  intros Hac. apply (walk_terminates_path _ _ _ ∅); [done|set_solver|set_solver|].
  rewrite size_empty. lia.
Qed.

(** In a closed graph without a reachable cycle the search returns. *)
Lemma walk_returns h this :
  acyclic_from h this → closed_from h this →
  ∃ r, walk own (S (size (dom h))) h this = Ok r.
Proof.
  intros Hac Hc. destruct (walk own (S (size (dom h))) h this) as [r|e| |] eqn:E.
  - by exists r.
  - by apply walk_no_raise in E.
  - by apply walk_defined in E.
  - by apply walk_terminates in E.
Qed.

End WalkFacts.

(** ** The two resolvers are instances of the search *)

Section Resolvers.
Context {V : Type}.
Implicit Types (h : store V) (name : string).

Lemma Setting_getImpl_parents_walk (rec : positive → result (option V)) ps :
  Setting._getImpl_parents rec ps = walk_parents rec ps.
Proof. induction ps as [|q l IH]; simpl; [done|]. by rewrite IH. Qed.

Lemma Setting_getImpl_walk fuel h name this :
  Setting._getImpl fuel h name this
  = walk (own_setting name) fuel h this.
Proof.
  revert this. induction fuel as [|f IH]; intros this; simpl; [done|].
  destruct (deref h this) as [o| | |]; simpl; [|done..].
  unfold own_setting at 1. destruct (setting_of o name); [done|].
  rewrite Setting_getImpl_parents_walk. apply walk_parents_ext. auto.
Qed.

Lemma own_nullable_set name (o : object V) s :
  own_nullable name o = Some s → set s = true ∧ s = nullable_of o name.
Proof.
  unfold own_nullable. destruct (set (nullable_of o name)) eqn:E; [|done].
  by intros [= <-].
Qed.

Lemma Nullable_getImpl_parents_ext
    (rec rec' : positive → result (NullableSetting V)) ps :
  (∀ q, q ∈ ps → rec q = rec' q) →
  Nullable._getImpl_parents rec ps = Nullable._getImpl_parents rec' ps.
Proof.
  induction ps as [|q l IH]; intros Hrec; simpl; [done|].
  rewrite <- (Hrec q) by left. rewrite IH; [done|].
  intros q' Hq'. apply Hrec. by right.
Qed.

Lemma Nullable_getImpl_parents_walk
    (g : positive → result (option (NullableSetting V))) ps :
  (∀ q s, q ∈ ps → g q = Ok (Some s) → set s = true) →
  Nullable._getImpl_parents (λ q, rmap found_or_init (g q)) ps
  = rmap found_or_init (walk_parents g ps).
Proof.
  induction ps as [|q l IH]; intros Hset; simpl; [done|].
  destruct (g q) as [[s|]| | |] eqn:E; simpl; try done.
  - by rewrite (Hset q s (list_elem_of_here _ _) E).
  - apply IH. intros q' s Hq'. apply Hset. by right.
Qed.

Lemma Nullable_getImpl_walk fuel h name this :
  Nullable._getImpl fuel h name this
  = rmap found_or_init (walk (own_nullable name) fuel h this).
Proof.
  revert this. induction fuel as [|f IH]; intros this; simpl; [done|].
  destruct (deref h this) as [o| | |]; simpl; [|done..].
  unfold own_nullable at 1. destruct (set (nullable_of o name)); [done|].
  rewrite <- Nullable_getImpl_parents_walk.
  - apply Nullable_getImpl_parents_ext. auto.
  - intros q s _ Hs. apply walk_sound in Hs as (q' & o' & _ & _ & Hown).
    by apply own_nullable_set in Hown as [? _].
Qed.

End Resolvers.

(** ** The search and the resolution chain *)

Section ChainFacts.
Context {V R : Type} (own : object V → option R).
Implicit Types (h : store V).

Lemma first_resolving_app (resolved : positive → option R) l1 l2 :
  first_resolving resolved (l1 ++ l2)
  = match first_resolving resolved l1 with
    | Some v => Some v
    | None => first_resolving resolved l2
    end.
Proof.
  induction l1 as [|q l IH]; simpl; [done|]. by destruct (resolved q).
Qed.

Lemma first_resolving_none (resolved : positive → option R) l :
  (∀ q, q ∈ l → resolved q = None) → first_resolving resolved l = None.
Proof.
  induction l as [|q l IH]; intros Hn; simpl; [done|].
  rewrite (Hn q) by left. apply IH. intros q' Hq'. apply Hn. by right.
Qed.

(** The loop over the parents finds the first explicit value of the
    concatenated chains. *)
Lemma walk_parents_chain (rec : positive → result (option R))
    (ch : positive → list positive) h ps r :
  (∀ q r', q ∈ ps → rec q = Ok r' →
     r' = first_resolving (explicit own h) (ch q)) →
  walk_parents rec ps = Ok r →
  r = first_resolving (explicit own h) (ps ≫= ch).
Proof.
  induction ps as [|q l IH]; intros Hrec; cbn [walk_parents].
  - by intros [= <-].
  - rewrite bind_cons, first_resolving_app.
    destruct (rec q) as [[w|]| | |] eqn:E; simpl; try done.
    + intros [= <-]. by rewrite <- (Hrec q (Some w) (list_elem_of_here _ _) E).
    + rewrite <- (Hrec q None (list_elem_of_here _ _) E).
      apply IH. intros q' r' Hq'. apply Hrec. by right.
Qed.

Lemma walk_chain fuel h this r :
  walk own fuel h this = Ok r →
  r = first_resolving (explicit own h) (chain fuel h this).
Proof.
  revert this r. induction fuel as [|f IH]; intros this r; simpl; [done|].
  unfold explicit at 1, deref. destruct (h !! this) as [o|]; simpl; [|done].
  destruct (own o) as [w|]; [by intros [= <-]|].
  apply walk_parents_chain. intros q r' _. apply IH.
Qed.

(** The chain holds ancestors only ... *)
Lemma chain_sound fuel h this q :
  q ∈ chain fuel h this → ancestor_or_self h this q.
Proof.
  revert this. induction fuel as [|f IH]; intros this; simpl.
  - by intros ?%elem_of_nil.
  - intros [->|Hq]%elem_of_cons; [apply rtc_refl|].
    destruct (h !! this) as [o|] eqn:Ho; [|by apply elem_of_nil in Hq].
    apply list_elem_of_bind in Hq as (p & Hq & Hp).
    eapply rtc_l; [|by apply IH]. by exists o.
Qed.

(** ... and, when no cycle is reachable, all of them. *)
Lemma chain_complete_path fuel h this (path : gset positive) q :
  acyclic_from h this →
  (∀ p, p ∈ path → tc (parent_of h) p this) →
  path ⊆ dom h →
  size (dom h) < fuel + size path →
  ancestor_or_self h this q → q ∈ chain fuel h this.
Proof.
  revert this path.
  induction fuel as [|f IH]; intros this path Hac Hpath Hsub Hsz Hq.
  - apply subseteq_size in Hsub. lia.
  - simpl. apply rtc_inv in Hq as [->|(p & [o [Ho Hp]] & Hq)]; [by left|].
    right. rewrite Ho. apply list_elem_of_bind. exists p. split; [|done].
    + assert (this ∉ path) as Hfresh.
      { intros Hin. apply (Hac this); [apply rtc_refl|]. by apply Hpath. }
      apply (IH p ({[this]} ∪ path)); [| | | |done].
      * eapply acyclic_from_parent; [done|]. by exists o.
      * intros q' [->%elem_of_singleton|Hq']%elem_of_union.
        -- apply tc_once. by exists o.
        -- eapply tc_r; [by apply Hpath|]. by exists o.
      * apply union_subseteq. split; [|done].
        apply singleton_subseteq_l. by eapply elem_of_dom_2.
      * rewrite size_union by set_solver. rewrite size_singleton. lia.
Qed.

Lemma resolution_chain_ancestors h this q :
  acyclic_from h this →
  q ∈ resolution_chain h this ↔ ancestor_or_self h this q.
Proof.
  intros Hac. split; [apply chain_sound|].
  apply (chain_complete_path _ _ _ ∅); [done|set_solver|set_solver|].
  rewrite size_empty. unfold enough. lia.
Qed.

(** In a closed graph without a reachable cycle, the search returns the
    first explicit value of the resolution chain. *)
Lemma walk_resolution_chain fuel h this :
  acyclic_from h this → closed_from h this → enough h ≤ fuel →
  walk own fuel h this
  = Ok (first_resolving (explicit own h) (resolution_chain h this)).
Proof.
  intros Hac Hc Hle. destruct (walk_returns own h this Hac Hc) as [r Hr].
  apply (walk_fuel_mono own (enough h)); [|done|done].
  unfold enough at 1. rewrite Hr. f_equal. by apply walk_chain.
Qed.

(** The search reads, of each object, its parents and what [own] yields. *)
Lemma walk_same_view (own' : object V → option R)
    fuel (h1 h2 : store V) this :
  (∀ p, match h1 !! p, h2 !! p with
        | Some o1, Some o2 => _parents o1 = _parents o2 ∧ own o1 = own' o2
        | None, None => True
        | _, _ => False
        end) →
  walk own fuel h1 this = walk own' fuel h2 this.
Proof.
  intros Hsame. revert this. induction fuel as [|f IH]; intros this; simpl; [done|].
  unfold deref. specialize (Hsame this).
  destruct (h1 !! this) as [o1|], (h2 !! this) as [o2|]; simpl; try done.
  destruct Hsame as [-> ->]. destruct (own' o2); [done|].
  apply walk_parents_ext. auto.
Qed.

End ChainFacts.

(** ** Checking a store *)

Section StoreChecks.
Context {V : Type}.
Implicit Types (h : store V).

Lemma parents_below_tc h p q :
  parents_below h → tc (parent_of h) p q → (q < p)%positive.
Proof.
  intros Hb. induction 1 as [p q (o & Ho & Hq)|p q r (o & Ho & Hq) _ IH].
  - specialize (Hb p o Ho). rewrite Forall_forall in Hb. by apply Hb.
  - specialize (Hb p o Ho). rewrite Forall_forall in Hb.
    apply Hb in Hq. lia.
Qed.

Lemma parents_below_acyclic h : parents_below h → acyclic h.
Proof. intros Hb q Hq. apply (parents_below_tc _ _ _ Hb) in Hq. lia. Qed.

Lemma parents_allocated_closed_from h p :
  parents_allocated h → is_Some (h !! p) → closed_from h p.
Proof.
  intros Ha Hp q Hq. induction Hq as [p|p p' q (o & Ho & Hp') _ IH]; [done|].
  apply IH. specialize (Ha p o Ho). rewrite Forall_forall in Ha. by apply Ha.
Qed.

End StoreChecks.

(** ** What one call changes *)

Section Calls.
Context {V : Type} `{EqDecision V}.
Implicit Types (h : store V) (o : object V) (name : string).

Lemma Setting_Has_eq h name this o :
  h !! this = Some o →
  Setting.Has h name this
  = Ok (match setting_of o name with Some _ => true | None => false end).
Proof. intros Ho. unfold Setting.Has. by rewrite (deref_Some _ _ _ Ho). Qed.

Lemma Nullable_Has_eq h name this o :
  h !! this = Some o →
  Nullable.Has h name this = Ok (set (nullable_of o name)).
Proof. intros Ho. unfold Nullable.Has. by rewrite (deref_Some _ _ _ Ho). Qed.

Lemma Setting_getImpl_S fuel h name this o :
  h !! this = Some o →
  Setting._getImpl (S fuel) h name this
  = match setting_of o name with
    | Some v => Ok (Some v)
    | None =>
        Setting._getImpl_parents (Setting._getImpl fuel h name) (_parents o)
    end.
Proof. intros Ho. simpl. by rewrite (deref_Some _ _ _ Ho). Qed.

Lemma Nullable_getImpl_S fuel h name this o :
  h !! this = Some o →
  Nullable._getImpl (S fuel) h name this
  = if set (nullable_of o name)
    then Ok (nullable_of o name)
    else Nullable._getImpl_parents (Nullable._getImpl fuel h name) (_parents o).
Proof. intros Ho. simpl. by rewrite (deref_Some _ _ _ Ho). Qed.

Lemma Setting_Setter_eq h name this o value :
  h !! this = Some o →
  Setting.Setter h name this value
  = Ok (<[this := with_setting name (Some value) o]> h).
Proof. intros Ho. unfold Setting.Setter. by erewrite update_Some. Qed.

Lemma Setting_Clear_eq h name this o :
  h !! this = Some o →
  Setting.Clear h name this = Ok (<[this := with_setting name None o]> h).
Proof. intros Ho. unfold Setting.Clear. by erewrite update_Some. Qed.

Lemma nullable_of_with_nullable name s o :
  nullable_of (with_nullable name s o) name = s.
Proof. unfold nullable_of. simpl. by rewrite lookup_insert_eq. Qed.

(** Whichever branch the setter takes, the member then holds the value
    with the flag raised, and nothing else of the object differs. *)
Lemma Nullable_Setter_eq h name this o (value : IReference V) :
  h !! this = Some o →
  ∃ o', Nullable.Setter h name this value = Ok (<[this := o']> h)
    ∧ nullable_of o' name = {| setting := value; set := true |}
    ∧ _parents o' = _parents o
    ∧ _settings o' = _settings o
    ∧ ∀ name', name' ≠ name → nullable_of o' name' = nullable_of o name'.
Proof.
  intros Ho. unfold Nullable.Setter, update. rewrite (deref_Some _ _ _ Ho). simpl.
  destruct (set (nullable_of o name)) eqn:Hset; simpl.
  - case_bool_decide as Heq; simpl.
    + exists o. split_and!; try done.
      destruct (nullable_of o name) as [s b]. simpl in *. by subst.
    + eexists. split_and!; [done|apply nullable_of_with_nullable|done|done|].
      intros name' Hne. unfold nullable_of. simpl. by rewrite lookup_insert_ne.
  - eexists. split_and!; [done|apply nullable_of_with_nullable|done|done|].
    intros name' Hne. unfold nullable_of. simpl. by rewrite lookup_insert_ne.
Qed.

Lemma Nullable_Clear_eq h name this o :
  h !! this = Some o →
  Nullable.Clear h name this
  = Ok (<[this := with_nullable name
                    {| setting := setting (nullable_of o name); set := false |}
                    o]> h).
Proof. intros Ho. unfold Nullable.Clear. by erewrite update_Some. Qed.

End Calls.

(** ** The resolvers, through the search *)

Section ResolverFacts.
Context {V : Type}.
Implicit Types (h : store V) (o : object V) (name : string).

Lemma first_resolving_ext {R : Type} (f g : positive → option R) l :
  (∀ q, q ∈ l → f q = g q) → first_resolving f l = first_resolving g l.
Proof.
  induction l as [|q l IH]; intros Hfg; simpl; [done|].
  rewrite (Hfg q) by left. rewrite IH; [done|].
  intros q' Hq'. apply Hfg. by right.
Qed.

Lemma first_resolving_Some {R : Type} (resolved : positive → option R) l v :
  first_resolving resolved l = Some v → ∃ q, q ∈ l ∧ resolved q = Some v.
Proof.
  induction l as [|q l IH]; simpl; [done|].
  destruct (resolved q) as [w|] eqn:E.
  - intros [= <-]. exists q. split; [by left|done].
  - intros (q' & Hq' & Hr)%IH. exists q'. split; [by right|done].
Qed.

Lemma explicit_nullable_set h name q s :
  explicit (own_nullable name) h q = Some s → set s = true.
Proof.
  unfold explicit. destruct (h !! q) as [o|]; [|done].
  by intros [? _]%own_nullable_set.
Qed.

Lemma Setting_getImpl_fuel_mono fuel fuel' h name this r :
  Setting._getImpl fuel h name this = r → r ≠ OutOfFuel → fuel ≤ fuel' →
  Setting._getImpl fuel' h name this = r.
Proof. rewrite !Setting_getImpl_walk. apply walk_fuel_mono. Qed.

Lemma Nullable_getImpl_fuel_mono fuel fuel' h name this r :
  Nullable._getImpl fuel h name this = r → r ≠ OutOfFuel → fuel ≤ fuel' →
  Nullable._getImpl fuel' h name this = r.
Proof.
  rewrite !Nullable_getImpl_walk. intros Hr Hne Hle.
  destruct (walk (own_nullable name) fuel h this) as [x|e| |] eqn:E;
    simpl in Hr; subst r; try done;
    by rewrite (walk_fuel_mono _ _ _ _ _ _ E) by done.
Qed.

Lemma Setting_getImpl_terminates fuel h name this :
  acyclic_from h this → enough h ≤ fuel →
  terminates (Setting._getImpl fuel h name this).
Proof.
  intros Hac Hle. unfold terminates. rewrite Setting_getImpl_walk.
  pose proof (walk_terminates (own_setting name) h this Hac) as Ht.
  by rewrite (walk_fuel_mono _ _ _ _ _ _ eq_refl Ht Hle).
Qed.

Lemma Nullable_getImpl_terminates fuel h name this :
  acyclic_from h this → enough h ≤ fuel →
  terminates (Nullable._getImpl fuel h name this).
Proof.
  intros Hac Hle. unfold terminates. rewrite Nullable_getImpl_walk.
  pose proof (walk_terminates (own_nullable name) h this Hac) as Ht.
  rewrite (walk_fuel_mono _ _ _ _ _ _ eq_refl Ht Hle).
  by destruct (walk _ _ _ _).
Qed.

Lemma Setting_getImpl_chain fuel h name this :
  acyclic_from h this → closed_from h this → enough h ≤ fuel →
  Setting._getImpl fuel h name this
  = Ok (first_resolving (explicit (own_setting name) h)
          (resolution_chain h this)).
Proof.
  intros. rewrite Setting_getImpl_walk.
  by apply (walk_resolution_chain (own_setting name)).
Qed.

Lemma Nullable_getImpl_chain fuel h name this :
  acyclic_from h this → closed_from h this → enough h ≤ fuel →
  Nullable._getImpl fuel h name this
  = Ok (found_or_init (first_resolving (explicit (own_nullable name) h)
                         (resolution_chain h this))).
Proof.
  intros. rewrite Nullable_getImpl_walk.
  by rewrite (walk_resolution_chain (own_nullable name)).
Qed.

Lemma Setting_Getter_chain dflt fuel h name this :
  acyclic_from h this → closed_from h this → enough h ≤ fuel →
  Setting.Getter dflt fuel h name this
  = Ok (default dflt (first_resolving (explicit (own_setting name) h)
                        (resolution_chain h this))).
Proof.
  intros. unfold Setting.Getter. rewrite Setting_getImpl_chain by done.
  simpl. by destruct (first_resolving _ _).
Qed.

Lemma Nullable_Getter_chain dflt fuel h name this :
  acyclic_from h this → closed_from h this → enough h ≤ fuel →
  Nullable.Getter dflt fuel h name this
  = Ok (default dflt (setting <$> first_resolving
                        (explicit (own_nullable name) h)
                        (resolution_chain h this))).
Proof.
  intros. unfold Nullable.Getter. rewrite Nullable_getImpl_chain by done.
  cbn [rbind]. destruct (first_resolving _ _) as [s|] eqn:E; [|done].
  apply first_resolving_Some in E as (q & _ & Hq). cbn.
  by rewrite (explicit_nullable_set _ _ _ _ Hq).
Qed.

Lemma Setting_getImpl_no_raise fuel h name this e :
  Setting._getImpl fuel h name this ≠ Raise e.
Proof. rewrite Setting_getImpl_walk. apply walk_no_raise. Qed.

Lemma Nullable_getImpl_no_raise fuel h name this e :
  Nullable._getImpl fuel h name this ≠ Raise e.
Proof.
  rewrite Nullable_getImpl_walk. intros Hr.
  destruct (walk (own_nullable name) fuel h this) eqn:E; try done.
  by apply walk_no_raise in E.
Qed.

(** The loop of the nullable resolver, on the source itself. *)
Lemma Nullable_getImpl_parents_none
    (rec : positive → result (NullableSetting V)) ps :
  (∀ q, q ∈ ps → ∃ s, rec q = Ok s ∧ set s = false) →
  Nullable._getImpl_parents rec ps = Ok {| setting := None; set := false |}.
Proof.
  induction ps as [|q l IH]; intros Hn; simpl; [done|].
  destruct (Hn q) as (s & -> & Hs); [by left|]. simpl. rewrite Hs.
  apply IH. intros q' Hq'. apply Hn. by right.
Qed.

Lemma Nullable_getImpl_parents_first
    (rec : positive → result (NullableSetting V)) before p after s :
  (∀ q, q ∈ before → ∃ s', rec q = Ok s' ∧ set s' = false) →
  rec p = Ok s → set s = true →
  Nullable._getImpl_parents rec (before ++ p :: after) = Ok s.
Proof.
  induction before as [|q l IH]; intros Hb Hp Hs; simpl.
  - rewrite Hp. simpl. by rewrite Hs.
  - destruct (Hb q) as (s' & -> & Hs'); [by left|]. simpl. rewrite Hs'.
    apply IH; [|done|done]. intros q' Hq'. apply Hb. by right.
Qed.

Lemma Setting_getImpl_parents_first
    (rec : positive → result (option V)) before p after v :
  (∀ q, q ∈ before → rec q = Ok None) →
  rec p = Ok (Some v) →
  Setting._getImpl_parents rec (before ++ p :: after) = Ok (Some v).
Proof. rewrite Setting_getImpl_parents_walk. apply walk_parents_first. Qed.

(** Stores that agree on the flags, and on the references under a raised
    flag, resolve alike. *)
Lemma Nullable_getImpl_same_explicit fuel name (h1 h2 : store V) this :
  same_explicit name h1 h2 →
  Nullable._getImpl fuel h1 name this = Nullable._getImpl fuel h2 name this.
Proof.
  intros Hsame. rewrite !Nullable_getImpl_walk. f_equal.
  by apply walk_same_view.
Qed.

Lemma Nullable_Has_same_explicit name (h1 h2 : store V) this :
  same_explicit name h1 h2 →
  Nullable.Has h1 name this = Nullable.Has h2 name this.
Proof.
  intros Hsame. unfold Nullable.Has, deref. specialize (Hsame this).
  destruct (h1 !! this) as [o1|], (h2 !! this) as [o2|]; simpl; try done.
  destruct Hsame as [_ Hown]. unfold own_nullable in Hown. f_equal.
  destruct (set (nullable_of o1 name)) eqn:E1,
           (set (nullable_of o2 name)) eqn:E2; try done.
Qed.

Lemma same_explicit_observable name (h1 h2 : store V) :
  same_explicit name h1 h2 →
  ∀ p, Nullable.Has h1 name p = Nullable.Has h2 name p
       ∧ ∀ dflt fuel, Nullable.Getter dflt fuel h1 name p
                      = Nullable.Getter dflt fuel h2 name p.
Proof.
  intros Hsame p. split; [by apply Nullable_Has_same_explicit|].
  intros dflt fuel. unfold Nullable.Getter.
  by rewrite (Nullable_getImpl_same_explicit _ _ _ _ _ Hsame).
Qed.

(** Replacing the reference held under a lowered flag gives a store that
    cannot be told apart. *)
Lemma same_explicit_residual name h this o x y :
  h !! this = Some o →
  same_explicit name
    (<[this := with_nullable name {| setting := x; set := false |} o]> h)
    (<[this := with_nullable name {| setting := y; set := false |} o]> h).
Proof.
  intros Ho p. destruct (decide (p = this)) as [->|Hne].
  - rewrite !lookup_insert_eq. split; [done|].
    unfold own_nullable. by rewrite !nullable_of_with_nullable.
  - rewrite !lookup_insert_ne by done. destruct (h !! p); done.
Qed.

Lemma same_explicit_insert name h this o o1 o2 :
  h !! this = Some o →
  _parents o1 = _parents o2 →
  own_nullable name o1 = own_nullable name o2 →
  same_explicit name (<[this := o1]> h) (<[this := o2]> h).
Proof.
  intros Ho Hps Hown p. destruct (decide (p = this)) as [->|Hne].
  - by rewrite !lookup_insert_eq.
  - rewrite !lookup_insert_ne by done. destruct (h !! p); done.
Qed.

(** Beyond [enough h] the depth makes no difference. *)
Lemma Setting_getImpl_stable fuel h name this :
  acyclic_from h this → enough h ≤ fuel →
  Setting._getImpl fuel h name this = Setting._getImpl (enough h) h name this.
Proof.
  intros Hac Hle. eapply Setting_getImpl_fuel_mono; [done| |done].
  by apply Setting_getImpl_terminates.
Qed.

Lemma Nullable_getImpl_stable fuel h name this :
  acyclic_from h this → enough h ≤ fuel →
  Nullable._getImpl fuel h name this
  = Nullable._getImpl (enough h) h name this.
Proof.
  intros Hac Hle. eapply Nullable_getImpl_fuel_mono; [done| |done].
  by apply Nullable_getImpl_terminates.
Qed.

(** The loops return what [first_resolving] says of the outcomes of the
    recursive calls, when these all return. *)
Lemma Setting_getImpl_parents_first_resolving
    (rec : positive → result (option V)) ps :
  (∀ q, q ∈ ps → ∃ r, rec q = Ok r) →
  Setting._getImpl_parents rec ps
  = Ok (first_resolving
          (λ q, match rec q with Ok r => r | _ => None end) ps).
Proof.
  intros Hret. rewrite Setting_getImpl_parents_walk.
  apply walk_parents_first_resolving. intros q Hq.
  by destruct (Hret q Hq) as [r ->].
Qed.

Lemma Nullable_getImpl_parents_first_resolving
    (rec : positive → result (NullableSetting V)) ps :
  (∀ q, q ∈ ps → ∃ r, rec q = Ok r) →
  ∃ s, Nullable._getImpl_parents rec ps = Ok s
    ∧ (if set s then Some (setting s) else None)
      = first_resolving
          (λ q, match rec q with
                | Ok r => if set r then Some (setting r) else None
                | _ => None
                end) ps.
Proof.
  induction ps as [|q l IH]; intros Hret; simpl.
  - by eexists.
  - destruct (Hret q) as [r Hr]; [by left|]. rewrite Hr. simpl.
    destruct (set r) eqn:Hs.
    + exists r. by rewrite Hs.
    + apply IH. intros q' Hq'. apply Hret. by right.
Qed.

End ResolverFacts.

(** ** [InsertParent] and [CreateChild] *)

Section NodeClaims.
Context {V : Type}.
Implicit Types (h : store V) (o : object V).

(** C1 (as the code has it): [InsertParent(index, parent)] checks nothing
    and signals no error.  For [index] within [0, parent count] it returns
    with [parent] at position [index], the parents before it in place, the
    parents from [index] on one position later, and nothing else of the
    object changed; for [index] above the parent count the call has no
    defined behaviour. *)
Theorem InsertParent_at_unchecked h this o index parent :
  h !! this = Some o →
  (index ≤ length (_parents o) →
     ∃ o', IInheritable.InsertParent_at h this index parent
            = Ok (<[this := o']> h)
       ∧ _parents o'
         = take index (_parents o) ++ parent :: drop index (_parents o)
       ∧ length (_parents o') = S (length (_parents o))
       ∧ _parents o' !! index = Some parent
       ∧ (∀ j, j < index → _parents o' !! j = _parents o !! j)
       ∧ (∀ j, index ≤ j → _parents o' !! S j = _parents o !! j)
       ∧ _settings o' = _settings o
       ∧ _nullables o' = _nullables o)
  ∧ (length (_parents o) < index →
     IInheritable.InsertParent_at h this index parent = Undefined).
Proof.
  intros Ho. unfold IInheritable.InsertParent_at, update.
  rewrite (deref_Some _ _ _ Ho). simpl. split; intros Hi.
  - rewrite decide_True by done. simpl. eexists. split; [done|]. simpl.
    assert (length (take index (_parents o)) = index) as Hlen
      by (rewrite length_take; lia).
    split_and!; try done.
    + rewrite length_app, Hlen. simpl. rewrite length_drop. lia.
    + rewrite lookup_app_r by lia. rewrite Hlen, Nat.sub_diag. done.
    + intros j Hj. rewrite lookup_app_l by lia. by apply lookup_take_lt.
    + intros j Hj. rewrite lookup_app_r by lia. rewrite Hlen.
      replace (S j - index) with (S (j - index)) by lia. simpl.
      rewrite lookup_drop. f_equal. lia.
  - rewrite decide_False by lia. done.
Qed.

Lemma CreateChild_unfold hook h this o :
  h !! this = Some o →
  IInheritable.CreateChild hook h this
  = (h' ←r hook (fresh (dom h))
             (<[fresh (dom h) := with_parents [this] make_self]> h);
     Ok (fresh (dom h), h')).
Proof.
  intros Ho. unfold IInheritable.CreateChild, IInheritable.InsertParent.
  rewrite (deref_Some _ _ _ Ho). simpl.
  erewrite update_Some; [|apply lookup_insert_eq|done].
  simpl. by rewrite insert_insert_eq.
Qed.

Lemma fresh_not_allocated h : h !! fresh (dom h) = None.
Proof. apply not_elem_of_dom. apply is_fresh. Qed.

(** C7: [CreateChild] on the object at [this] makes a new object whose
    parent list is exactly [[this]] and whose settings are all unset, runs
    the hook [_FinalizeInheritance] once, on that child in that store, and
    returns the child; with the empty hook of the header the child is
    returned in that state. *)
Theorem CreateChild_child
    (hook : positive → store V → result (store V)) h this o :
  h !! this = Some o →
  let child := fresh (dom h) in
  let linked := <[child := with_parents [this] make_self]> h in
  h !! child = None
  ∧ child ≠ this
  ∧ linked !! child = Some (mkObject [this] ∅ ∅)
  ∧ (∀ name, Setting.Has linked name child = Ok false
             ∧ Nullable.Has linked name child = Ok false)
  ∧ IInheritable.CreateChild hook h this
    = (h' ←r hook child linked; Ok (child, h'))
  ∧ IInheritable.CreateChild IInheritable._FinalizeInheritance_default h this
    = Ok (child, linked).
Proof.
  intros Ho child linked.
  assert (h !! child = None) as Hfresh by apply fresh_not_allocated.
  assert (linked !! child = Some (mkObject [this] ∅ ∅)) as Hchild
    by apply lookup_insert_eq.
  split_and!; try done.
  - intros ->. congruence.
  - intros name. unfold Setting.Has, Nullable.Has.
    rewrite (deref_Some _ _ _ Hchild). done.
  - by eapply CreateChild_unfold.
  - by erewrite CreateChild_unfold.
Qed.

(** C10: [CreateChild] leaves its receiver as it was — the same parent
    list, the same settings — and so every object that existed; this holds
    with the empty hook of the header, and with any hook that leaves the
    receiver alone. *)
Theorem CreateChild_creator_unchanged h this o :
  h !! this = Some o →
  (∃ child h',
     IInheritable.CreateChild IInheritable._FinalizeInheritance_default h this
       = Ok (child, h')
     ∧ h' !! this = Some o
     ∧ ∀ q, is_Some (h !! q) → h' !! q = h !! q)
  ∧ (∀ hook child h',
       hook_preserves hook this →
       IInheritable.CreateChild hook h this = Ok (child, h') →
       h' !! this = Some o).
Proof.
  intros Ho.
  assert (fresh (dom h) ≠ this) as Hne.
  { intros E. pose proof (fresh_not_allocated h) as Hf. rewrite E in Hf. congruence. }
  split.
  - eexists _, _. split; [by erewrite CreateChild_unfold|]. split.
    + by rewrite lookup_insert_ne.
    + intros q [oq Hq]. rewrite lookup_insert_ne; [done|].
      intros E. pose proof (fresh_not_allocated h) as Hf. rewrite E in Hf. congruence.
  - intros hook child h' Hhook Hc. erewrite CreateChild_unfold in Hc by done.
    apply rbind_Ok_inv in Hc as (h2 & Hh2 & [= <- <-]).
    rewrite (Hhook _ _ _ Hh2). by rewrite lookup_insert_ne.
Qed.

End NodeClaims.

(** ** The accessors of a setting *)

Section SettingClaims.
Context {V : Type} `{EqDecision V}.
Implicit Types (h : store V) (o : object V) (name : string).

(** C3: after the setter has stored [v] on an object, whatever the member
    held before and whatever the parents hold, [Has] on that object is
    true and the getter returns [v]; for the plain and for the nullable
    setting. *)
Theorem Setter_then_Has_Getter h name this o :
  h !! this = Some o →
  (∀ v : V, ∃ h',
     Setting.Setter h name this v = Ok h'
     ∧ Setting.Has h' name this = Ok true
     ∧ ∀ dflt fuel, Setting.Getter dflt (S fuel) h' name this = Ok v)
  ∧ (∀ r : IReference V, ∃ h',
     Nullable.Setter h name this r = Ok h'
     ∧ Nullable.Has h' name this = Ok true
     ∧ ∀ dflt fuel, Nullable.Getter dflt (S fuel) h' name this = Ok r).
Proof.
  intros Ho. split.
  - intros v. eexists. split; [by apply Setting_Setter_eq|].
    assert (setting_of (with_setting name (Some v) o) name = Some v) as Hv
      by apply lookup_insert_eq.
    split.
    + erewrite Setting_Has_eq by apply lookup_insert_eq. by rewrite Hv.
    + intros dflt fuel. unfold Setting.Getter.
      erewrite Setting_getImpl_S by apply lookup_insert_eq. by rewrite Hv.
  - intros r. destruct (Nullable_Setter_eq h name this o r Ho)
      as (o' & -> & Hr & _). eexists. split; [done|]. split.
    + erewrite Nullable_Has_eq by apply lookup_insert_eq. by rewrite Hr.
    + intros dflt fuel. unfold Nullable.Getter.
      erewrite Nullable_getImpl_S by apply lookup_insert_eq. by rewrite Hr.
Qed.

(** C5: on a freshly constructed object [Has] is false and the getter
    returns the declared default; the getter throws nothing; and in a
    store where the object reaches no cycle and no dangling pointer, the
    getter returns a value, which is the declared default whenever neither
    the object nor any of its ancestors has an explicit value. *)
Theorem Getter_default h name this :
  (h !! this = Some make_self →
     Setting.Has h name this = Ok false
     ∧ Nullable.Has h name this = Ok false
     ∧ (∀ (dflt : V) fuel, Setting.Getter dflt (S fuel) h name this = Ok dflt)
     ∧ (∀ (dflt : IReference V) fuel,
          Nullable.Getter dflt (S fuel) h name this = Ok dflt))
  ∧ (∀ (dflt : V) fuel e, Setting.Getter dflt fuel h name this ≠ Raise e)
  ∧ (∀ (dflt : IReference V) fuel e,
       Nullable.Getter dflt fuel h name this ≠ Raise e)
  ∧ (acyclic_from h this → closed_from h this →
     (∀ (dflt : V) fuel, enough h ≤ fuel →
        ∃ v, Setting.Getter dflt fuel h name this = Ok v)
     ∧ (∀ (dflt : IReference V) fuel, enough h ≤ fuel →
        ∃ r, Nullable.Getter dflt fuel h name this = Ok r)
     ∧ ((∀ q oq, ancestor_or_self h this q → h !! q = Some oq →
           setting_of oq name = None) →
        ∀ (dflt : V) fuel, enough h ≤ fuel →
          Setting.Getter dflt fuel h name this = Ok dflt)
     ∧ ((∀ q oq, ancestor_or_self h this q → h !! q = Some oq →
           set (nullable_of oq name) = false) →
        ∀ (dflt : IReference V) fuel, enough h ≤ fuel →
          Nullable.Getter dflt fuel h name this = Ok dflt)).
Proof.
  split_and!.
  - intros Ho.
    assert (setting_of (V:=V) make_self name = None) as Hs
      by apply lookup_empty.
    assert (nullable_of (V:=V) make_self name = NullableSetting_init) as Hn
      by (unfold nullable_of; simpl; by rewrite lookup_empty).
    split_and!.
    + erewrite Setting_Has_eq by done. by rewrite Hs.
    + erewrite Nullable_Has_eq by done. by rewrite Hn.
    + intros dflt fuel. unfold Setting.Getter.
      erewrite Setting_getImpl_S by done. by rewrite Hs.
    + intros dflt fuel. unfold Nullable.Getter.
      erewrite Nullable_getImpl_S by done. by rewrite Hn.
  - intros dflt fuel e. unfold Setting.Getter.
    destruct (Setting._getImpl fuel h name this) eqn:E; simpl; try done.
    by apply Setting_getImpl_no_raise in E.
  - intros dflt fuel e. unfold Nullable.Getter.
    destruct (Nullable._getImpl fuel h name this) eqn:E; simpl; try done.
    by apply Nullable_getImpl_no_raise in E.
  - intros Hac Hc. split_and!.
    + intros dflt fuel Hle. rewrite Setting_Getter_chain by done. eauto.
    + intros dflt fuel Hle. rewrite Nullable_Getter_chain by done. eauto.
    + intros Hnone dflt fuel Hle. rewrite Setting_Getter_chain by done.
      rewrite first_resolving_none; [done|]. intros q Hq.
      apply chain_sound in Hq. unfold explicit.
      destruct (h !! q) as [oq|] eqn:Hoq; [|done]. by apply (Hnone q).
    + intros Hnone dflt fuel Hle. rewrite Nullable_Getter_chain by done.
      rewrite first_resolving_none; [done|]. intros q Hq.
      apply chain_sound in Hq. unfold explicit.
      destruct (h !! q) as [oq|] eqn:Hoq; [|done]. unfold own_nullable.
      by rewrite (Hnone q oq).
Qed.

(** C6: for the nullable setting, [Has] is the flag.  Under a raised flag
    the getter returns the stored reference, null included: after the
    setter has stored null, [Has] is true and the getter returns null and
    not the default.  Under a lowered flag [Has] is false and the getter
    may return null as well (no parents, null default).  Two stores that
    agree on every flag, and on the references under the raised ones,
    answer [Has] and the getter alike: the reference under a lowered flag
    plays no part. *)
Theorem Nullable_flag_discriminates h name this o :
  h !! this = Some o →
  Nullable.Has h name this = Ok (set (nullable_of o name))
  ∧ (∃ h', Nullable.Setter h name this None = Ok h'
       ∧ Nullable.Has h' name this = Ok true
       ∧ ∀ dflt fuel, Nullable.Getter dflt (S fuel) h' name this = Ok None)
  ∧ (set (nullable_of o name) = true →
       ∀ dflt fuel, Nullable.Getter dflt (S fuel) h name this
                    = Ok (setting (nullable_of o name)))
  ∧ (set (nullable_of o name) = false → _parents o = [] →
       Nullable.Has h name this = Ok false
       ∧ ∀ fuel, Nullable.Getter None (S fuel) h name this = Ok None)
  ∧ (∀ h2, same_explicit name h h2 →
       ∀ p, Nullable.Has h name p = Nullable.Has h2 name p
            ∧ ∀ dflt fuel, Nullable.Getter dflt fuel h name p
                           = Nullable.Getter dflt fuel h2 name p).
Proof.
  intros Ho. split_and!.
  - by apply Nullable_Has_eq.
  - destruct (Nullable_Setter_eq h name this o None Ho) as (o' & -> & Hr & _).
    eexists. split; [done|]. split.
    + erewrite Nullable_Has_eq by apply lookup_insert_eq. by rewrite Hr.
    + intros dflt fuel. unfold Nullable.Getter.
      erewrite Nullable_getImpl_S by apply lookup_insert_eq. by rewrite Hr.
  - intros Hset dflt fuel. unfold Nullable.Getter.
    erewrite Nullable_getImpl_S by done. rewrite Hset. simpl. by rewrite Hset.
  - intros Hset Hps. split; [by erewrite Nullable_Has_eq, Hset|].
    intros fuel. unfold Nullable.Getter.
    erewrite Nullable_getImpl_S by done. by rewrite Hset, Hps.
  - intros h2 Hsame. by apply same_explicit_observable.
Qed.

(** C9: [Clear] of a nullable setting lowers the flag and writes nothing
    else: the stored reference stays.  After it [Has] is false, and the
    getter answers as it would with any other reference left behind: it
    resolves through the parents, in order.  It returns the reference of
    the first parent whose resolution yields one, whatever reference was
    left behind, and the default when no parent yields one; where the
    object reaches no cycle and no dangling pointer, that is the first
    explicit reference along the resolution chain of the proper ancestors,
    or the default. *)
Theorem Nullable_Clear_residual h name this o :
  h !! this = Some o →
  ∃ o',
    Nullable.Clear h name this = Ok (<[this := o']> h)
    ∧ nullable_of o' name
      = {| setting := setting (nullable_of o name); set := false |}
    ∧ _parents o' = _parents o
    ∧ _settings o' = _settings o
    ∧ (∀ name', name' ≠ name → nullable_of o' name' = nullable_of o name')
    ∧ Nullable.Has (<[this := o']> h) name this = Ok false
    ∧ (∀ x dflt fuel,
         Nullable.Getter dflt fuel
           (<[this := with_nullable name {| setting := x; set := false |} o]> h)
           name this
         = Nullable.Getter dflt fuel (<[this := o']> h) name this)
    ∧ (∀ fuel,
         Nullable._getImpl (S fuel) (<[this := o']> h) name this
         = Nullable._getImpl_parents
             (Nullable._getImpl fuel (<[this := o']> h) name) (_parents o))
    ∧ (∀ dflt fuel,
         (∀ q, q ∈ _parents o →
            ∃ s, Nullable._getImpl fuel (<[this := o']> h) name q = Ok s
                 ∧ set s = false) →
         Nullable.Getter dflt (S fuel) (<[this := o']> h) name this = Ok dflt)
    ∧ (∀ dflt fuel,
         Nullable.Getter dflt (S fuel) (<[this := o']> h) name this
         = (val ←r Nullable._getImpl_parents
                     (Nullable._getImpl fuel (<[this := o']> h) name)
                     (_parents o);
            Ok (if set val then setting val else dflt)))
    ∧ (∀ dflt fuel before A after s,
         _parents o = before ++ A :: after →
         (∀ q, q ∈ before →
            ∃ s', Nullable._getImpl fuel (<[this := o']> h) name q = Ok s'
                  ∧ set s' = false) →
         Nullable._getImpl fuel (<[this := o']> h) name A = Ok s →
         set s = true →
         Nullable.Getter dflt (S fuel) (<[this := o']> h) name this
         = Ok (setting s))
    ∧ (acyclic_from (<[this := o']> h) this →
       closed_from (<[this := o']> h) this →
       ∀ dflt fuel, enough (<[this := o']> h) ≤ fuel →
         Nullable.Getter dflt fuel (<[this := o']> h) name this
         = Ok (default dflt
                 (setting <$>
                  first_resolving
                    (explicit (own_nullable name) (<[this := o']> h))
                    (tail (resolution_chain (<[this := o']> h) this))))).
Proof.
  intros Ho. eexists. split; [by apply Nullable_Clear_eq|].
  set (o' := with_nullable name _ o).
  assert (nullable_of o' name
          = {| setting := setting (nullable_of o name); set := false |}) as Hn
    by apply nullable_of_with_nullable.
  assert (∀ fuel,
    Nullable._getImpl (S fuel) (<[this := o']> h) name this
    = Nullable._getImpl_parents
        (Nullable._getImpl fuel (<[this := o']> h) name) (_parents o)) as Hres.
  { intros fuel. erewrite Nullable_getImpl_S by apply lookup_insert_eq.
    by rewrite Hn. }
  split_and!; try done.
  - intros name' Hne. unfold nullable_of. simpl. by rewrite lookup_insert_ne.
  - erewrite Nullable_Has_eq by apply lookup_insert_eq. by rewrite Hn.
  - intros x dflt fuel. unfold Nullable.Getter.
    by rewrite (Nullable_getImpl_same_explicit _ _ _ _ _
                  (same_explicit_residual name h this o x
                     (setting (nullable_of o name)) Ho)).
  - intros dflt fuel Hnone. unfold Nullable.Getter. rewrite Hres.
    by rewrite Nullable_getImpl_parents_none.
  - intros dflt fuel. unfold Nullable.Getter. by rewrite Hres.
  - intros dflt fuel before A after s Hps Hb HA Hs. unfold Nullable.Getter.
    rewrite Hres, Hps.
    rewrite (Nullable_getImpl_parents_first _ _ _ _ s) by done.
    simpl. by rewrite Hs.
  - intros Hac Hc dflt fuel Hle. rewrite Nullable_Getter_chain by done.
    unfold resolution_chain, enough. simpl. unfold explicit at 1.
    rewrite lookup_insert_eq. unfold own_nullable at 1. by rewrite Hn.
Qed.

(** C2: on an object without an explicit value the getter returns the
    value of the first parent, in the order of the parent list, whose own
    resolution yields one.  An object's own explicit value comes before
    its ancestors'.  Whatever follows that first parent in the list takes
    no part: the result needs nothing of the later parents.  With parents
    A then B, both set, the getter returns the value of A.  For the plain
    and for the nullable setting. *)
Theorem resolution_order h name this o :
  h !! this = Some o →
  ((∀ w fuel, setting_of o name = Some w →
      Setting._getImpl (S fuel) h name this = Ok (Some w))
   ∧ (setting_of o name = None →
      (∀ dflt fuel before A after a,
         _parents o = before ++ A :: after →
         (∀ q, q ∈ before → Setting._getImpl fuel h name q = Ok None) →
         Setting._getImpl fuel h name A = Ok (Some a) →
         Setting.Getter dflt (S fuel) h name this = Ok a)
      ∧ (∀ dflt fuel A B rest oa ob a b,
           _parents o = A :: B :: rest →
           h !! A = Some oa → h !! B = Some ob →
           setting_of oa name = Some a → setting_of ob name = Some b →
           Setting.Getter dflt (S (S fuel)) h name this = Ok a)
      ∧ (acyclic_from h this → closed_from h this →
         ∀ dflt fuel, enough h < fuel →
           Setting.Getter dflt fuel h name this
           = Ok (default dflt
                   (first_resolving (Setting_resolve h name) (_parents o))))))
  ∧ ((∀ fuel, set (nullable_of o name) = true →
      Nullable._getImpl (S fuel) h name this = Ok (nullable_of o name))
   ∧ (set (nullable_of o name) = false →
      (∀ dflt fuel before A after s,
         _parents o = before ++ A :: after →
         (∀ q, q ∈ before →
            ∃ s', Nullable._getImpl fuel h name q = Ok s' ∧ set s' = false) →
         Nullable._getImpl fuel h name A = Ok s → set s = true →
         Nullable.Getter dflt (S fuel) h name this = Ok (setting s))
      ∧ (∀ dflt fuel A B rest oa ob,
           _parents o = A :: B :: rest →
           h !! A = Some oa → h !! B = Some ob →
           set (nullable_of oa name) = true →
           set (nullable_of ob name) = true →
           Nullable.Getter dflt (S (S fuel)) h name this
           = Ok (setting (nullable_of oa name)))
      ∧ (acyclic_from h this → closed_from h this →
         ∀ dflt fuel, enough h < fuel →
           Nullable.Getter dflt fuel h name this
           = Ok (default dflt
                   (first_resolving (Nullable_resolve h name) (_parents o)))))).
Proof.
  intros Ho. split.
  - split.
    { intros w fuel Hw. erewrite Setting_getImpl_S by done. by rewrite Hw. }
    intros Hunset.
    assert (∀ dflt fuel before A after a,
      _parents o = before ++ A :: after →
      (∀ q, q ∈ before → Setting._getImpl fuel h name q = Ok None) →
      Setting._getImpl fuel h name A = Ok (Some a) →
      Setting.Getter dflt (S fuel) h name this = Ok a) as Hfirst.
    { intros dflt fuel before A after a Hps Hb HA. unfold Setting.Getter.
      erewrite Setting_getImpl_S by done. rewrite Hunset, Hps.
      by rewrite (Setting_getImpl_parents_first _ _ _ _ a). }
    split_and!; [done| |].
    + intros dflt fuel A B rest oa ob a b Hps HA HB Ha Hb.
      apply (Hfirst dflt (S fuel) [] A (B :: rest) a); [done| |].
      * by intros q ?%elem_of_nil.
      * erewrite Setting_getImpl_S by done. by rewrite Ha.
    + intros Hac Hc dflt fuel Hle. destruct fuel as [|f]; [lia|].
      unfold Setting.Getter. erewrite Setting_getImpl_S by done. rewrite Hunset.
      assert (∀ q, q ∈ _parents o → parent_of h this q) as Hpar
        by (intros q Hq; by exists o).
      rewrite Setting_getImpl_parents_first_resolving.
      * rewrite (first_resolving_ext _ (Setting_resolve h name)).
        { simpl. by destruct (first_resolving _ _). }
        intros q Hq. unfold Setting_resolve.
        rewrite (Setting_getImpl_stable f); [done| |unfold enough in *; lia].
        eapply acyclic_from_parent; [done|]. by apply Hpar.
      * intros q Hq. rewrite Setting_getImpl_chain; [by eexists| | |].
        -- eapply acyclic_from_parent; [done|]. by apply Hpar.
        -- eapply closed_from_parent; [done|]. by apply Hpar.
        -- unfold enough in *. lia.
  - split.
    { intros fuel Hset. erewrite Nullable_getImpl_S by done. by rewrite Hset. }
    intros Hunset.
    assert (∀ dflt fuel before A after s,
      _parents o = before ++ A :: after →
      (∀ q, q ∈ before →
         ∃ s', Nullable._getImpl fuel h name q = Ok s' ∧ set s' = false) →
      Nullable._getImpl fuel h name A = Ok s → set s = true →
      Nullable.Getter dflt (S fuel) h name this = Ok (setting s)) as Hfirst.
    { intros dflt fuel before A after s Hps Hb HA Hs. unfold Nullable.Getter.
      erewrite Nullable_getImpl_S by done. rewrite Hunset, Hps.
      rewrite (Nullable_getImpl_parents_first _ _ _ _ s) by done.
      simpl. by rewrite Hs. }
    split_and!; [done| |].
    + intros dflt fuel A B rest oa ob Hps HA HB Ha Hb.
      apply (Hfirst dflt (S fuel) [] A (B :: rest)); [done| | |done].
      * by intros q ?%elem_of_nil.
      * erewrite Nullable_getImpl_S by done. by rewrite Ha.
    + intros Hac Hc dflt fuel Hle. destruct fuel as [|f]; [lia|].
      unfold Nullable.Getter. erewrite Nullable_getImpl_S by done.
      rewrite Hunset.
      assert (∀ q, q ∈ _parents o → parent_of h this q) as Hpar
        by (intros q Hq; by exists o).
      destruct (Nullable_getImpl_parents_first_resolving
                  (Nullable._getImpl f h name) (_parents o)) as (s & -> & Hs).
      * intros q Hq. rewrite Nullable_getImpl_chain; [by eexists| | |].
        -- eapply acyclic_from_parent; [done|]. by apply Hpar.
        -- eapply closed_from_parent; [done|]. by apply Hpar.
        -- unfold enough in *. lia.
      * simpl. f_equal.
        assert (first_resolving (Nullable_resolve h name) (_parents o)
                = if set s then Some (setting s) else None) as ->.
        { rewrite Hs. apply first_resolving_ext. intros q Hq.
          unfold Nullable_resolve.
          rewrite (Nullable_getImpl_stable f); [done| |unfold enough in *; lia].
          eapply acyclic_from_parent; [done|]. by apply Hpar. }
        by destruct (set s).
Qed.

(** C4: after the setter and then [Clear] on an object, [Has] is false
    and every object of the store answers [Has] and the getter as in the
    store where the object only cleared the setting, and as in the store
    before the two calls when the setting was not set there (for the plain
    setting these stores are equal).  The resolver goes through the
    parents in order; where the object reaches no cycle and no dangling
    pointer, the getter returns the first explicit value along the
    resolution chain of the proper ancestors, or the default when there is
    none. *)
Theorem Setter_Clear_restores h name this o :
  h !! this = Some o →
  (∀ v : V, ∃ h1 h2,
     Setting.Setter h name this v = Ok h1
     ∧ Setting.Clear h1 name this = Ok h2
     ∧ Setting.Has h2 name this = Ok false
     ∧ Setting.Clear h name this = Ok h2
     ∧ (setting_of o name = None → h2 = h)
     ∧ (∀ fuel,
          Setting._getImpl (S fuel) h2 name this
          = Setting._getImpl_parents (Setting._getImpl fuel h2 name)
              (_parents o))
     ∧ (acyclic_from h2 this → closed_from h2 this →
        ∀ dflt fuel, enough h2 ≤ fuel →
          Setting.Getter dflt fuel h2 name this
          = Ok (default dflt
                  (first_resolving (explicit (own_setting name) h2)
                     (tail (resolution_chain h2 this))))))
  ∧ (∀ r : IReference V, ∃ h1 h2,
     Nullable.Setter h name this r = Ok h1
     ∧ Nullable.Clear h1 name this = Ok h2
     ∧ Nullable.Has h2 name this = Ok false
     ∧ (∃ hc, Nullable.Clear h name this = Ok hc
          ∧ ∀ p, Nullable.Has h2 name p = Nullable.Has hc name p
                 ∧ ∀ dflt fuel, Nullable.Getter dflt fuel h2 name p
                                = Nullable.Getter dflt fuel hc name p)
     ∧ (set (nullable_of o name) = false →
          ∀ p, Nullable.Has h2 name p = Nullable.Has h name p
               ∧ ∀ dflt fuel, Nullable.Getter dflt fuel h2 name p
                              = Nullable.Getter dflt fuel h name p)
     ∧ (∀ fuel,
          Nullable._getImpl (S fuel) h2 name this
          = Nullable._getImpl_parents (Nullable._getImpl fuel h2 name)
              (_parents o))
     ∧ (acyclic_from h2 this → closed_from h2 this →
        ∀ dflt fuel, enough h2 ≤ fuel →
          Nullable.Getter dflt fuel h2 name this
          = Ok (default dflt
                  (setting <$>
                   first_resolving (explicit (own_nullable name) h2)
                     (tail (resolution_chain h2 this)))))).
Proof.
  intros Ho. split.
  - intros v. eexists _, _. split; [by apply Setting_Setter_eq|].
    split; [apply Setting_Clear_eq, lookup_insert_eq|].
    rewrite insert_insert_eq.
    set (o2 := with_setting name None (with_setting name (Some v) o)).
    assert (o2 = with_setting name None o) as Ho2.
    { unfold o2, with_setting. simpl. by rewrite delete_insert_eq. }
    assert (setting_of o2 name = None) as Hunset.
    { rewrite Ho2. apply lookup_delete_eq. }
    assert (<[this := o2]> h !! this = Some o2) as Hlook
      by apply lookup_insert_eq.
    split_and!.
    + erewrite Setting_Has_eq by done. by rewrite Hunset.
    + rewrite Ho2. by apply Setting_Clear_eq.
    + intros Hnone. apply insert_id. rewrite Ho, Ho2. f_equal.
      destruct o as [ps ss ns]. unfold with_setting. simpl. f_equal.
      symmetry. by apply delete_id.
    + intros fuel. erewrite Setting_getImpl_S by done. by rewrite Hunset, Ho2.
    + intros Hac Hc dflt fuel Hle. rewrite Setting_Getter_chain by done.
      unfold resolution_chain, enough. simpl. unfold explicit at 1.
      rewrite Hlook. unfold own_setting at 1. by rewrite Hunset.
  - intros r. destruct (Nullable_Setter_eq h name this o r Ho)
      as (o1 & -> & Hr & Hps1 & _). eexists _, _. split; [done|].
    split; [apply Nullable_Clear_eq, lookup_insert_eq|].
    rewrite insert_insert_eq. rewrite Hr. cbn [setting].
    set (o2 := with_nullable name {| setting := r; set := false |} o1).
    assert (nullable_of o2 name = {| setting := r; set := false |}) as Hn
      by apply nullable_of_with_nullable.
    assert (own_nullable name o2 = None) as Hown
      by (unfold own_nullable; by rewrite Hn).
    assert (<[this := o2]> h !! this = Some o2) as Hlook
      by apply lookup_insert_eq.
    split_and!.
    + erewrite Nullable_Has_eq by done. by rewrite Hn.
    + eexists. split; [by apply Nullable_Clear_eq|].
      apply same_explicit_observable.
      apply (same_explicit_insert _ _ _ o _ _ Ho); [done|]. rewrite Hown.
      unfold own_nullable. by rewrite nullable_of_with_nullable.
    + intros Hset. apply same_explicit_observable.
      rewrite <- (insert_id h this o Ho) at 2.
      apply (same_explicit_insert _ _ _ o _ _ Ho); [done|]. rewrite Hown.
      unfold own_nullable. by rewrite Hset.
    + intros fuel. erewrite Nullable_getImpl_S by done. rewrite Hn. simpl.
      by rewrite Hps1.
    + intros Hac Hc dflt fuel Hle. rewrite Nullable_Getter_chain by done.
      unfold resolution_chain, enough. simpl. unfold explicit at 1.
      rewrite Hlook. by rewrite Hown.
Qed.

(** C8: where the object reaches no cycle, the resolvers and the getters
    terminate: a depth of recursion of one more than the number of objects
    in the store is enough, and more depth changes nothing; where it
    reaches no dangling pointer either, they return a value.  A resolution
    that no depth lets finish has a cycle within reach. *)
Theorem resolution_terminates h name this :
  (acyclic_from h this → ∀ fuel, enough h ≤ fuel →
     terminates (Setting._getImpl fuel h name this)
     ∧ terminates (Nullable._getImpl fuel h name this)
     ∧ (∀ dflt, terminates (Setting.Getter dflt fuel h name this))
     ∧ (∀ dflt, terminates (Nullable.Getter dflt fuel h name this))
     ∧ Setting._getImpl fuel h name this
       = Setting._getImpl (enough h) h name this
     ∧ Nullable._getImpl fuel h name this
       = Nullable._getImpl (enough h) h name this
     ∧ (closed_from h this →
        (∃ r, Setting._getImpl fuel h name this = Ok r)
        ∧ (∃ r, Nullable._getImpl fuel h name this = Ok r)
        ∧ (∀ dflt, ∃ v, Setting.Getter dflt fuel h name this = Ok v)
        ∧ (∀ dflt, ∃ v, Nullable.Getter dflt fuel h name this = Ok v)))
  ∧ ((∀ fuel, Setting._getImpl fuel h name this = OutOfFuel) →
     ¬ acyclic_from h this)
  ∧ ((∀ fuel, Nullable._getImpl fuel h name this = OutOfFuel) →
     ¬ acyclic_from h this).
Proof.
  split_and!.
  - intros Hac fuel Hle.
    pose proof (Setting_getImpl_terminates fuel h name this Hac Hle) as Hs.
    pose proof (Nullable_getImpl_terminates fuel h name this Hac Hle) as Hn.
    split_and!; try done.
    + intros dflt. unfold Setting.Getter, terminates in *.
      by destruct (Setting._getImpl fuel h name this).
    + intros dflt. unfold Nullable.Getter, terminates in *.
      by destruct (Nullable._getImpl fuel h name this).
    + by apply Setting_getImpl_stable.
    + by apply Nullable_getImpl_stable.
    + intros Hc. split_and!.
      * rewrite Setting_getImpl_chain by done. by eexists.
      * rewrite Nullable_getImpl_chain by done. by eexists.
      * intros dflt. rewrite Setting_Getter_chain by done. by eexists.
      * intros dflt. rewrite Nullable_Getter_chain by done. by eexists.
  - intros Hdiv Hac.
    by apply (Setting_getImpl_terminates (enough h) h name this Hac).
  - intros Hdiv Hac.
    by apply (Nullable_getImpl_terminates (enough h) h name this Hac).
Qed.

End SettingClaims.

Lemma InsertParent_at_unchecked_witness :
  IInheritable.InsertParent_at two_parents 1 5 4 = Undefined.
Proof.
  apply (InsertParent_at_unchecked two_parents 1
           (mkObject [2%positive; 3%positive] ∅ ∅) 5 4).
  - reflexivity.
  - simpl. lia.
Defined.

(** C1 as the specification words it fails on the code:
    [InsertParent(5, p)] on an object with two parents raises no
    out-of-range error. *)
Lemma InsertParent_at_5_of_2_raises_nothing :
  length [2%positive; 3%positive] < 5
  ∧ two_parents !! 1%positive = Some (mkObject [2%positive; 3%positive] ∅ ∅)
  ∧ IInheritable.InsertParent_at two_parents 1 5 4 ≠ Raise out_of_range.
Proof. split_and!; [simpl; lia|reflexivity|vm_compute; discriminate]. Qed.

Lemma CreateChild_creator_unchanged_witness :
  ∃ child h',
    IInheritable.CreateChild IInheritable._FinalizeInheritance_default
      two_parents 1 = Ok (child, h')
    ∧ h' !! 1%positive = Some (mkObject [2%positive; 3%positive] ∅ ∅)
    ∧ ∀ q, is_Some (two_parents !! q) → h' !! q = two_parents !! q.
Proof.
  apply (CreateChild_creator_unchanged two_parents 1
           (mkObject [2%positive; 3%positive] ∅ ∅)).
  reflexivity.
Defined.

Lemma CreateChild_child_witness :
  IInheritable.CreateChild IInheritable._FinalizeInheritance_default
    two_parents 1
  = Ok (fresh (dom two_parents),
        <[fresh (dom two_parents) := with_parents [1%positive] make_self]>
          two_parents).
Proof.
  apply (CreateChild_child IInheritable._FinalizeInheritance_default
           two_parents 1 (mkObject [2%positive; 3%positive] ∅ ∅)).
  reflexivity.
Defined.


(** ** The example stores *)

Lemma layered_acyclic p : acyclic_from layered p.
Proof.
  apply acyclic_acyclic_from, parents_below_acyclic.
  by apply (bool_decide_unpack _).
Qed.

Lemma layered_closed p : is_Some (layered !! p) → closed_from layered p.
Proof.
  apply parents_allocated_closed_from. by apply (bool_decide_unpack _).
Qed.

Lemma chain3_acyclic p : acyclic_from chain3 p.
Proof.
  apply acyclic_acyclic_from, parents_below_acyclic.
  by apply (bool_decide_unpack _).
Qed.

Lemma chain3_closed p : is_Some (chain3 !! p) → closed_from chain3 p.
Proof.
  apply parents_allocated_closed_from. by apply (bool_decide_unpack _).
Qed.

(** The chain Root, Mid, Leaf of the specification: the leaf reads the
    root's 10, and Mid's 20 once Mid has set it. *)
Example chain3_nearer_ancestor_wins :
  Setting.Getter 0 4 chain3 "P" 3 = Ok 10
  ∧ (h' ←r Setting.Setter chain3 "P" 2 20; Setting.Getter 0 4 h' "P" 3)
    = Ok 20.
Proof. split; reflexivity. Qed.

(** An object that is its own parent, without a value: no depth lets the
    resolution finish. *)
Example self_parent_diverges fuel :
  Setting._getImpl fuel self_parent "P" 1 = OutOfFuel
  ∧ Setting.Getter 0 fuel self_parent "P" 1 = OutOfFuel.
Proof.
  assert (Setting._getImpl fuel self_parent "P" 1 = OutOfFuel) as Hd.
  { induction fuel as [|f IH]; [done|].
    erewrite Setting_getImpl_S by reflexivity. simpl. by rewrite IH. }
  split; [done|]. unfold Setting.Getter. by rewrite Hd.
Qed.

Lemma resolution_order_witness :
  Setting.Getter 0 6 layered "P" 4
  = Ok (default 0 (first_resolving (Setting_resolve layered "P")
                     [2%positive; 3%positive]))
  ∧ Setting.Getter 0 2 layered "P" 4 = Ok 20
  ∧ Nullable.Getter (Some 99) 2 layered "Q" 4 = Ok None.
Proof.
  split_and!.
  - apply (resolution_order layered "P" 4
             (mkObject [2%positive; 3%positive] ∅ ∅)).
    + reflexivity.
    + reflexivity.
    + apply layered_acyclic.
    + apply layered_closed. by eexists.
    + vm_compute. lia.
  - apply (proj1 (proj2 (proj2 (proj1
      (resolution_order layered "P" 4
         (mkObject [2%positive; 3%positive] ∅ ∅) eq_refl)) eq_refl))
      0 0 2%positive 3%positive []
      (mkObject [1%positive] {[ "P" := 20 ]}
         {[ "Q" := mkNullable None true ]})
      (mkObject [1%positive] {[ "P" := 30 ]}
         {[ "Q" := mkNullable (Some 3) true ]}) 20 30);
      reflexivity.
  - etrans.
    + apply (proj1 (proj2 (proj2 (proj2
        (resolution_order layered "Q" 4
           (mkObject [2%positive; 3%positive] ∅ ∅) eq_refl)) eq_refl))
        (Some 99) 0 2%positive 3%positive []
        (mkObject [1%positive] {[ "P" := 20 ]}
           {[ "Q" := mkNullable None true ]})
        (mkObject [1%positive] {[ "P" := 30 ]}
           {[ "Q" := mkNullable (Some 3) true ]}));
        reflexivity.
    + reflexivity.
Defined.

Lemma Setter_then_Has_Getter_witness :
  ∃ h', Setting.Setter layered "P" 4 7 = Ok h'
    ∧ Setting.Has h' "P" 4 = Ok true
    ∧ ∀ dflt fuel, Setting.Getter dflt (S fuel) h' "P" 4 = Ok 7.
Proof.
  apply (Setter_then_Has_Getter layered "P" 4
           (mkObject [2%positive; 3%positive] ∅ ∅)).
  reflexivity.
Defined.

Lemma Setter_Clear_restores_witness :
  ∃ h1 h2,
    Setting.Setter layered "P" 4 7 = Ok h1
    ∧ Setting.Clear h1 "P" 4 = Ok h2
    ∧ Setting.Has h2 "P" 4 = Ok false
    ∧ h2 = layered
    ∧ Setting.Getter 0 5 h2 "P" 4
      = Ok (default 0 (first_resolving (explicit (own_setting "P") h2)
                         (tail (resolution_chain h2 4)))).
Proof.
  destruct (proj1 (Setter_Clear_restores layered "P" 4
                     (mkObject [2%positive; 3%positive] ∅ ∅) eq_refl) 7)
    as (h1 & h2 & H1 & H2 & H3 & _ & H5 & _ & H7).
  exists h1, h2. pose proof (H5 eq_refl) as E. split_and!; try done.
  apply H7.
  - rewrite E. apply layered_acyclic.
  - rewrite E. apply layered_closed. by eexists.
  - rewrite E. vm_compute. lia.
Defined.

Lemma Getter_default_witness :
  Setting.Getter 0 4 chain3 "Z" 3 = Ok 0.
Proof.
  apply (Getter_default chain3 "Z" 3).
  - apply chain3_acyclic.
  - apply chain3_closed. by eexists.
  - intros q oq _ Hq.
    assert (map_Forall (λ _ o, setting_of o "Z" = None) chain3) as Hall
      by by apply (bool_decide_unpack _).
    by apply (Hall q).
  - vm_compute. lia.
Defined.

Lemma Nullable_flag_discriminates_witness :
  Nullable.Has layered "Q" 2 = Ok true
  ∧ ∀ dflt fuel, Nullable.Getter dflt (S fuel) layered "Q" 2 = Ok None.
Proof.
  destruct (Nullable_flag_discriminates layered "Q" 2
              (mkObject [1%positive] {[ "P" := 20 ]}
                 {[ "Q" := mkNullable None true ]}) eq_refl)
    as (H1 & _ & H3 & _).
  split; [exact H1|]. intros dflt fuel. exact (H3 eq_refl dflt fuel).
Defined.

Lemma Nullable_Clear_residual_witness :
  ∃ o', Nullable.Clear layered "Q" 3 = Ok (<[3%positive := o']> layered)
    ∧ nullable_of o' "Q" = {| setting := Some 3; set := false |}
    ∧ Nullable.Has (<[3%positive := o']> layered) "Q" 3 = Ok false
    ∧ ∀ dflt fuel,
        Nullable.Getter dflt (S (S fuel)) (<[3%positive := o']> layered) "Q" 3
        = Ok (Some 1).
Proof.
  destruct (Nullable_Clear_residual layered "Q" 3
              (mkObject [1%positive] {[ "P" := 30 ]}
                 {[ "Q" := mkNullable (Some 3) true ]})
              eq_refl)
    as (o' & H1 & H2 & _ & _ & _ & H6 & _ & _ & _ & _ & H11 & _).
  exists o'. split_and!; [exact H1|exact H2|exact H6|].
  intros dflt fuel.
  apply (H11 dflt (S fuel) [] 1%positive []
           {| setting := Some 1; set := true |}).
  - reflexivity.
  - by intros q ?%elem_of_nil.
  - cbn [Nullable._getImpl]. unfold deref.
    rewrite lookup_insert_ne by done. reflexivity.
  - reflexivity.
Defined.

Lemma resolution_terminates_witness :
  terminates (Setting._getImpl 5 layered "P" 4)
  ∧ terminates (Nullable._getImpl 5 layered "Q" 4)
  ∧ ∃ v, Setting.Getter 0 5 layered "P" 4 = Ok v.
Proof.
  split_and!.
  - apply (resolution_terminates layered "P" 4);
      [apply layered_acyclic|vm_compute; lia].
  - apply (resolution_terminates layered "Q" 4);
      [apply layered_acyclic|vm_compute; lia].
  - apply (resolution_terminates layered "P" 4);
      [apply layered_acyclic|vm_compute; lia|].
    apply layered_closed. by eexists.
Defined.

(** * Further properties of the header *)

(** ** More on the search: what it depends on *)

Section SearchFrame.
Context {V R : Type} (own : object V → option R).
Implicit Types (h : store V) (rec : positive → result (option R)).

Lemma walk_parents_Ok_weaken rec rec' ps r :
  (∀ q r', q ∈ ps → rec q = Ok r' → rec' q = Ok r') →
  walk_parents rec ps = Ok r → walk_parents rec' ps = Ok r.
Proof.
  induction ps as [|q l IH]; intros Hrec; simpl; [done|].
  destruct (rec q) as [[w|]| | |] eqn:E; simpl; try done.
  - intros [= <-]. by rewrite (Hrec q _ (list_elem_of_here _ _) E).
  - rewrite (Hrec q _ (list_elem_of_here _ _) E). simpl.
    apply IH. intros q' r' Hq'. apply Hrec. by right.
Qed.

Lemma walk_parents_None_inv rec ps :
  walk_parents rec ps = Ok None → ∀ q, q ∈ ps → rec q = Ok None.
Proof.
  induction ps as [|q l IH]; simpl; [by intros _ q ?%elem_of_nil|].
  destruct (rec q) as [[w|]| | |] eqn:E; simpl; try done.
  intros Hl q' [->|Hq']%elem_of_cons; [done|]. by apply IH.
Qed.

Lemma walk_parents_app_none rec l1 l2 :
  (∀ q, q ∈ l1 → rec q = Ok None) →
  walk_parents rec (l1 ++ l2) = walk_parents rec l2.
Proof.
  induction l1 as [|q l IH]; intros Hn; simpl; [done|].
  rewrite (Hn q) by left. simpl. apply IH. intros q' Hq'. apply Hn. by right.
Qed.

Lemma walk_parents_singleton rec p : walk_parents rec [p] = rec p.
Proof. simpl. by destruct (rec p) as [[w|]| | |]. Qed.

(** A loop over calls that find nothing or do not finish, one of which
    does not finish, does not finish. *)
Lemma walk_parents_diverges rec ps :
  (∀ q, q ∈ ps → rec q = Ok None ∨ rec q = OutOfFuel) →
  (∃ q, q ∈ ps ∧ rec q = OutOfFuel) →
  walk_parents rec ps = OutOfFuel.
Proof.
  induction ps as [|q l IH]; intros Hall (q1 & Hq1 & Hd); simpl.
  - by apply elem_of_nil in Hq1.
  - destruct (Hall q) as [E|E]; [by left|..]; rewrite E; simpl; [|done].
    apply IH; [intros q' Hq'; apply Hall; by right|].
    apply elem_of_cons in Hq1 as [->|Hq1]; [congruence|]. by exists q1.
Qed.

Lemma walk_parents_none_or_diverges rec ps :
  (∀ q, q ∈ ps → rec q = Ok None ∨ rec q = OutOfFuel) →
  walk_parents rec ps = Ok None ∨ walk_parents rec ps = OutOfFuel.
Proof.
  induction ps as [|q l IH]; intros Hall; simpl; [by left|].
  destruct (Hall q) as [E|E]; [by left|..]; rewrite E; simpl; [|by right].
  apply IH. intros q' Hq'. apply Hall. by right.
Qed.

(** A value found in a store is found in every larger store. *)
Lemma walk_extend fuel h h' this r :
  h ⊆ h' → walk own fuel h this = Ok r → walk own fuel h' this = Ok r.
Proof.
  intros Hsub. revert this r.
  induction fuel as [|f IH]; intros this r; simpl; [done|].
  unfold deref. destruct (h !! this) as [o|] eqn:Ho; simpl; [|done].
  rewrite (lookup_weaken _ _ _ _ Ho Hsub). simpl.
  destruct (own o); [done|]. apply walk_parents_Ok_weaken. auto.
Qed.

(** The search from [this] reads the objects that [this] reaches, and of
    each its parents and what [own] yields. *)
Lemma walk_agree_from (own' : object V → option R) fuel h h' this :
  (∀ q, ancestor_or_self h this q →
     match h !! q, h' !! q with
     | Some o, Some o' => _parents o = _parents o' ∧ own o = own' o'
     | None, None => True
     | _, _ => False
     end) →
  walk own fuel h this = walk own' fuel h' this.
Proof.
  revert this. induction fuel as [|f IH]; intros this Hsame; simpl; [done|].
  unfold deref. pose proof (Hsame this (rtc_refl _ _)) as Hthis.
  destruct (h !! this) as [o|] eqn:Ho, (h' !! this) as [o'|];
    simpl; try done.
  destruct Hthis as [Hps <-]. rewrite <- Hps. destruct (own o); [done|].
  apply walk_parents_ext. intros q Hq. apply IH. intros q' Hq'.
  apply Hsame. eapply rtc_l; [|done]. by exists o.
Qed.

(** Writing an object that [q] does not reach leaves the search from [q]
    as it was. *)
Lemma walk_insert_unreached fuel h this o' q :
  ¬ ancestor_or_self h q this →
  walk own fuel (<[this := o']> h) q = walk own fuel h q.
Proof.
  intros Hnot. symmetry. apply walk_agree_from. intros q' Hq'.
  rewrite lookup_insert_ne by (intros ->; done). by destruct (h !! q').
Qed.

(** Writing an object without changing its parents or what [own] yields
    leaves every search as it was. *)
Lemma walk_insert_same_view fuel h this o o' q :
  h !! this = Some o → _parents o' = _parents o → own o' = own o →
  walk own fuel (<[this := o']> h) q = walk own fuel h q.
Proof.
  intros Ho Hps Hown. apply walk_same_view. intros p.
  destruct (decide (p = this)) as [->|Hne].
  - by rewrite lookup_insert_eq, Ho.
  - rewrite lookup_insert_ne by done. by destruct (h !! p).
Qed.

End SearchFrame.

(** ** More on [InsertParent] *)

Section ParentOrder.
Context {V : Type}.
Implicit Types (h : store V) (o : object V) (name : string).

Lemma InsertParent_eq h this o parent :
  h !! this = Some o →
  IInheritable.InsertParent h this parent
  = Ok (<[this := with_parents (_parents o ++ [parent]) o]> h).
Proof. intros Ho. unfold IInheritable.InsertParent. by erewrite update_Some. Qed.

Lemma parent_not_reaching h this o q :
  h !! this = Some o → acyclic_from h this → q ∈ _parents o →
  ¬ ancestor_or_self h q this.
Proof.
  intros Ho Hac Hq Hrtc. apply (Hac this); [apply rtc_refl|].
  eapply tc_rtc_r; [|exact Hrtc]. apply tc_once. by exists o.
Qed.

Lemma Nullable_getImpl_found fuel h name this s :
  Nullable._getImpl fuel h name this = Ok s → set s = true →
  walk (own_nullable name) fuel h this = Ok (Some s).
Proof.
  rewrite Nullable_getImpl_walk.
  destruct (walk (own_nullable name) fuel h this) as [[s'|]| | |];
    simpl; try done; by intros [= <-].
Qed.

Lemma Nullable_getImpl_unfound fuel h name this s :
  Nullable._getImpl fuel h name this = Ok s → set s = false →
  walk (own_nullable name) fuel h this = Ok None.
Proof.
  rewrite Nullable_getImpl_walk.
  destruct (walk (own_nullable name) fuel h this) as [[s'|]| | |] eqn:E;
    simpl; try done.
  intros [= <-] Hs. apply walk_sound in E as (q & oq & _ & _ & Hown).
  apply own_nullable_set in Hown as [Hset _]. congruence.
Qed.

(** With a parent appended, a search that found a value finds it still. *)
Lemma walk_append_found {R : Type} (own : object V → option R)
    fuel h this o parent v :
  (∀ ps, own (with_parents ps o) = own o) →
  h !! this = Some o → acyclic_from h this →
  walk own fuel h this = Ok (Some v) →
  walk own fuel (<[this := with_parents (_parents o ++ [parent]) o]> h) this
  = Ok (Some v).
Proof.
  intros Hown Ho Hac.
  set (h' := <[this := with_parents (_parents o ++ [parent]) o]> h).
  assert (h' !! this = Some (with_parents (_parents o ++ [parent]) o))
    as Hthis by apply lookup_insert_eq.
  assert (∀ f q, q ∈ _parents o → walk own f h' q = walk own f h q) as Hsame.
  { intros f q Hq. apply walk_insert_unreached. by eapply parent_not_reaching. }
  destruct fuel as [|f]; simpl; [done|].
  rewrite (deref_Some _ _ _ Ho), (deref_Some _ _ _ Hthis).
  simpl. rewrite Hown. destruct (own o); [done|].
  intros (before & p & after & Hps & Hb & Hp)%walk_parents_found_inv.
  assert (∀ q, q ∈ before ∨ q = p → q ∈ _parents o) as Hin.
  { intros q Hq. rewrite Hps, elem_of_app, elem_of_cons. tauto. }
  rewrite Hps, <- app_assoc. simpl. apply walk_parents_first.
  - intros q Hq. rewrite Hsame; [by apply Hb|]. apply Hin. by left.
  - rewrite Hsame; [done|]. apply Hin. by right.
Qed.

(** With a parent appended, a search that found nothing goes on to the
    new parent. *)
Lemma walk_append_none {R : Type} (own : object V → option R)
    fuel h this o parent :
  (∀ ps, own (with_parents ps o) = own o) →
  h !! this = Some o → acyclic_from h this →
  walk own (S fuel) h this = Ok None →
  walk own (S fuel)
    (<[this := with_parents (_parents o ++ [parent]) o]> h) this
  = walk own fuel
      (<[this := with_parents (_parents o ++ [parent]) o]> h) parent.
Proof.
  intros Hown Ho Hac.
  set (h' := <[this := with_parents (_parents o ++ [parent]) o]> h).
  assert (h' !! this = Some (with_parents (_parents o ++ [parent]) o))
    as Hthis by apply lookup_insert_eq.
  assert (∀ f q, q ∈ _parents o → walk own f h' q = walk own f h q) as Hsame.
  { intros f q Hq. apply walk_insert_unreached. by eapply parent_not_reaching. }
  simpl. rewrite (deref_Some _ _ _ Ho), (deref_Some _ _ _ Hthis).
  simpl. rewrite Hown. destruct (own o); [done|]. intros Hnone.
  rewrite walk_parents_app_none; [apply walk_parents_singleton|].
  intros q Hq. rewrite Hsame by done. by eapply walk_parents_None_inv.
Qed.

(** X1: [InsertParent(parent)] on an existing object always returns; the
    parent list is the old one with [parent] at its end, the settings are
    untouched, and the call is [InsertParent(index, parent)] at the index
    equal to the parent count. *)
Theorem InsertParent_appends h this o parent :
  h !! this = Some o →
  ∃ o', IInheritable.InsertParent h this parent = Ok (<[this := o']> h)
    ∧ _parents o' = _parents o ++ [parent]
    ∧ length (_parents o') = S (length (_parents o))
    ∧ _parents o' !! length (_parents o) = Some parent
    ∧ (∀ j, j < length (_parents o) → _parents o' !! j = _parents o !! j)
    ∧ _settings o' = _settings o
    ∧ _nullables o' = _nullables o
    ∧ IInheritable.InsertParent_at h this (length (_parents o)) parent
      = IInheritable.InsertParent h this parent.
Proof.
  intros Ho. eexists. split; [by apply InsertParent_eq|]. simpl.
  split_and!; try done.
  - rewrite length_app. simpl. lia.
  - rewrite lookup_app_r by lia. by rewrite Nat.sub_diag.
  - intros j Hj. by rewrite lookup_app_l.
  - rewrite (InsertParent_eq _ _ _ _ Ho).
    unfold IInheritable.InsertParent_at, update.
    rewrite (deref_Some _ _ _ Ho). cbn [rbind]. rewrite decide_True by done.
    cbn [rbind]. by rewrite take_ge, drop_ge by done.
Qed.

(** X2: an appended parent comes last in the search.  Where the object
    reaches no cycle, a value that the resolver found before
    [InsertParent(parent)] is the value the getter returns after it; and
    where the resolver found nothing before, the getter afterwards returns
    what the getter returns on the new parent. *)
Theorem InsertParent_lowest_priority h this o parent name :
  h !! this = Some o → acyclic_from h this →
  ∃ h', IInheritable.InsertParent h this parent = Ok h'
    ∧ (∀ dflt fuel v,
         Setting._getImpl fuel h name this = Ok (Some v) →
         Setting.Getter dflt fuel h' name this = Ok v)
    ∧ (∀ dflt fuel,
         Setting._getImpl (S fuel) h name this = Ok None →
         Setting.Getter dflt (S fuel) h' name this
         = Setting.Getter dflt fuel h' name parent)
    ∧ (∀ dflt fuel s,
         Nullable._getImpl fuel h name this = Ok s → set s = true →
         Nullable.Getter dflt fuel h' name this = Ok (setting s))
    ∧ (∀ dflt fuel s,
         Nullable._getImpl (S fuel) h name this = Ok s → set s = false →
         Nullable.Getter dflt (S fuel) h' name this
         = Nullable.Getter dflt fuel h' name parent).
Proof.
  intros Ho Hac. eexists. split; [by apply InsertParent_eq|]. split_and!.
  - intros dflt fuel v Hv. unfold Setting.Getter.
    rewrite Setting_getImpl_walk in *.
    by rewrite (walk_append_found (own_setting name) _ _ _ o _ v).
  - intros dflt fuel Hn. unfold Setting.Getter.
    rewrite !Setting_getImpl_walk in *.
    by rewrite (walk_append_none (own_setting name) _ _ _ o).
  - intros dflt fuel s Hs Hset. unfold Nullable.Getter.
    rewrite Nullable_getImpl_walk.
    rewrite (walk_append_found (own_nullable name) _ _ _ o _ s);
      [|done|done|done|by apply Nullable_getImpl_found].
    simpl. by rewrite Hset.
  - intros dflt fuel s Hs Hset. unfold Nullable.Getter.
    rewrite !Nullable_getImpl_walk.
    rewrite (walk_append_none (own_nullable name) _ _ _ o);
      [done|done|done|done|by eapply Nullable_getImpl_unfound].
Qed.

(** X3: a parent inserted at index 0 comes first in the search: on an
    object without an explicit value, after [InsertParent(0, parent)] the
    getter returns the explicit value of [parent], whatever the other
    parents hold. *)
Theorem InsertParent_at_front_overrides h this o parent po name :
  h !! this = Some o → h !! parent = Some po →
  ∃ h', IInheritable.InsertParent_at h this 0 parent = Ok h'
    ∧ (∀ dflt fuel v,
         setting_of o name = None → setting_of po name = Some v →
         Setting.Getter dflt (S (S fuel)) h' name this = Ok v)
    ∧ (∀ dflt fuel,
         set (nullable_of o name) = false →
         set (nullable_of po name) = true →
         Nullable.Getter dflt (S (S fuel)) h' name this
         = Ok (setting (nullable_of po name))).
Proof.
  intros Ho Hpo. unfold IInheritable.InsertParent_at, update.
  rewrite (deref_Some _ _ _ Ho). cbn [rbind]. rewrite decide_True by lia.
  rewrite take_0, drop_0. cbn [rbind app]. eexists. split; [done|].
  set (h' := <[this := with_parents (parent :: _parents o) o]> h).
  assert (h' !! this = Some (with_parents (parent :: _parents o) o)) as Hthis
    by apply lookup_insert_eq.
  split.
  - intros dflt fuel v Hunset Hv.
    assert (h' !! parent = Some po) as Hparent.
    { unfold h'. rewrite lookup_insert_ne; [done|]. intros ->. congruence. }
    unfold Setting.Getter. erewrite Setting_getImpl_S by done.
    change (setting_of (with_parents _ o) name) with (setting_of o name).
    rewrite Hunset. cbn [_parents with_parents Setting._getImpl_parents].
    erewrite Setting_getImpl_S by done. by rewrite Hv.
  - intros dflt fuel Hunset Hset.
    assert (h' !! parent = Some po) as Hparent.
    { unfold h'. rewrite lookup_insert_ne; [done|]. intros ->. congruence. }
    unfold Nullable.Getter. erewrite Nullable_getImpl_S by done.
    change (nullable_of (with_parents _ o) name) with (nullable_of o name).
    rewrite Hunset. cbn [_parents with_parents Nullable._getImpl_parents].
    erewrite Nullable_getImpl_S by done. rewrite Hset.
    cbn [rbind]. rewrite Hset. cbn [rbind]. by rewrite Hset.
Qed.

End ParentOrder.

(** ** Pointers that [InsertParent] does not check *)

Section ParentPointers.
Context {V : Type}.
Implicit Types (h : store V) (o : object V) (name : string).

(** In the store with [parent] appended to the parents of [this], a search
    that found nothing in [h] finds nothing or does not finish. *)
Lemma walk_cycle_none_or_diverges {R : Type} (own : object V → option R)
    h this o parent :
  (∀ ps, own (with_parents ps o) = own o) →
  h !! this = Some o →
  (∃ f0, walk own f0 h parent = Ok None) →
  ∀ fuel q, (∃ f0, walk own f0 h q = Ok None) →
    let h' := <[this := with_parents (_parents o ++ [parent]) o]> h in
    walk own fuel h' q = Ok None ∨ walk own fuel h' q = OutOfFuel.
Proof.
  intros Hown Ho Hparent fuel.
  induction fuel as [|f IH]; intros q [f0 H0] h'; [by right|].
  destruct f0 as [|f0]; [done|]. simpl in H0. unfold deref in H0.
  destruct (h !! q) as [oq|] eqn:Hoq; simpl in H0; [|done].
  destruct (own oq) eqn:Hoq_own; [done|].
  pose proof (walk_parents_None_inv _ _ H0) as Hps.
  simpl. unfold deref, h'. destruct (decide (q = this)) as [->|Hne].
  - rewrite lookup_insert_eq. simpl. rewrite Hown.
    assert (oq = o) as -> by congruence. rewrite Hoq_own.
    apply walk_parents_none_or_diverges.
    intros q' [Hq'|Hq']%elem_of_app;
      [|apply list_elem_of_singleton in Hq' as ->]; apply IH; eauto.
  - rewrite lookup_insert_ne by done. rewrite Hoq. simpl. rewrite Hoq_own.
    apply walk_parents_none_or_diverges. intros q' Hq'. apply IH. eauto.
Qed.

(** When [this] is [parent] or an ancestor of it, the search from any
    object that reached [this], and found nothing, does not finish. *)
Lemma walk_cycle_diverges {R : Type} (own : object V → option R)
    h this o parent :
  (∀ ps, own (with_parents ps o) = own o) →
  h !! this = Some o →
  ancestor_or_self h parent this →
  (∃ f0, walk own f0 h parent = Ok None) →
  ∀ fuel q, ancestor_or_self h q this →
    (∃ f0, walk own f0 h q = Ok None) →
    walk own fuel (<[this := with_parents (_parents o ++ [parent]) o]> h) q
    = OutOfFuel.
Proof.
  intros Hown Ho Hcyc Hparent fuel.
  induction fuel as [|f IH]; intros q Hq [f0 H0]; [done|].
  pose proof (walk_cycle_none_or_diverges own h this o parent Hown Ho Hparent f)
    as Hnd.
  destruct f0 as [|f0]; [done|]. simpl in H0. unfold deref in H0.
  destruct (h !! q) as [oq|] eqn:Hoq; simpl in H0; [|done].
  destruct (own oq) eqn:Hoq_own; [done|].
  pose proof (walk_parents_None_inv _ _ H0) as Hps.
  simpl. unfold deref. destruct (decide (q = this)) as [->|Hne].
  - rewrite lookup_insert_eq. simpl. rewrite Hown.
    assert (oq = o) as -> by congruence. rewrite Hoq_own.
    apply walk_parents_diverges.
    + intros q' [Hq'|Hq']%elem_of_app;
        [|apply list_elem_of_singleton in Hq' as ->]; apply Hnd; eauto.
    + exists parent. split; [apply elem_of_app; right; by left|].
      by apply IH.
  - rewrite lookup_insert_ne by done. rewrite Hoq. simpl. rewrite Hoq_own.
    apply rtc_inv in Hq as [->|(q1 & (oq' & Hoq' & Hq1) & Hrtc)]; [done|].
    assert (oq' = oq) as -> by congruence.
    apply walk_parents_diverges.
    + intros q' Hq'. apply Hnd. eauto.
    + exists q1. split; [done|]. apply IH; eauto.
Qed.

(** X9: neither overload of [InsertParent] looks at the pointer it
    stores.  With a pointer that refers to no object (a null [com_ptr])
    inserted at index 0, the getter of every setting that the object does
    not set itself has no defined behaviour; the same holds with the
    pointer appended, for every setting that resolved to nothing before
    (the object reaching no cycle). *)
Theorem InsertParent_unchecked_pointer h this o parent name :
  h !! this = Some o → h !! parent = None →
  (∃ h', IInheritable.InsertParent_at h this 0 parent = Ok h'
     ∧ (setting_of o name = None →
        ∀ dflt fuel,
          Setting.Getter dflt (S (S fuel)) h' name this = Undefined)
     ∧ (set (nullable_of o name) = false →
        ∀ dflt fuel,
          Nullable.Getter dflt (S (S fuel)) h' name this = Undefined))
  ∧ (∃ h', IInheritable.InsertParent h this parent = Ok h'
     ∧ (acyclic_from h this →
        ∀ dflt fuel,
          Setting._getImpl (S fuel) h name this = Ok None →
          Setting.Getter dflt (S (S fuel)) h' name this = Undefined)
     ∧ (acyclic_from h this →
        ∀ dflt fuel s,
          Nullable._getImpl (S fuel) h name this = Ok s → set s = false →
          Nullable.Getter dflt (S (S fuel)) h' name this = Undefined)).
Proof.
  intros Ho Hnull.
  assert (parent ≠ this) as Hne by (intros ->; congruence).
  split.
  - unfold IInheritable.InsertParent_at, update.
    rewrite (deref_Some _ _ _ Ho). cbn [rbind]. rewrite decide_True by lia.
    rewrite take_0, drop_0. cbn [rbind app]. eexists. split; [done|].
    set (h' := <[this := with_parents (parent :: _parents o) o]> h).
    assert (h' !! this = Some (with_parents (parent :: _parents o) o))
      as Hthis by apply lookup_insert_eq.
    assert (h' !! parent = None) as Hparent
      by (unfold h'; by rewrite lookup_insert_ne).
    split.
    + intros Hunset dflt fuel. unfold Setting.Getter.
      erewrite Setting_getImpl_S by done.
      change (setting_of (with_parents _ o) name) with (setting_of o name).
      rewrite Hunset. cbn [_parents with_parents Setting._getImpl_parents].
      cbn [Setting._getImpl]. unfold deref. by rewrite Hparent.
    + intros Hunset dflt fuel. unfold Nullable.Getter.
      erewrite Nullable_getImpl_S by done.
      change (nullable_of (with_parents _ o) name) with (nullable_of o name).
      rewrite Hunset. cbn [_parents with_parents Nullable._getImpl_parents].
      cbn [Nullable._getImpl]. unfold deref. by rewrite Hparent.
  - eexists. split; [by apply InsertParent_eq|].
    set (h' := <[this := with_parents (_parents o ++ [parent]) o]> h).
    assert (h' !! parent = None) as Hparent
      by (unfold h'; by rewrite lookup_insert_ne).
    split.
    + intros Hac dflt fuel Hn. unfold Setting.Getter.
      rewrite Setting_getImpl_walk in *.
      apply (walk_fuel_mono _ _ (S (S fuel))) in Hn; [|done|lia].
      unfold h'. rewrite (walk_append_none (own_setting name) _ _ _ o) by done.
      fold h'. simpl. unfold deref. by rewrite Hparent.
    + intros Hac dflt fuel s Hs Hset. unfold Nullable.Getter.
      rewrite Nullable_getImpl_walk.
      apply Nullable_getImpl_unfound in Hs; [|done].
      apply (walk_fuel_mono _ _ (S (S fuel))) in Hs; [|done|lia].
      unfold h'. rewrite (walk_append_none (own_nullable name) _ _ _ o) by done.
      fold h'. simpl. unfold deref. by rewrite Hparent.
Qed.

(** X10: [InsertParent] does not look for cycles.  When the object is the
    new parent itself, or one of its ancestors, the call returns, and
    afterwards the getter of a setting that resolved to nothing on the
    object and on the new parent finishes at no depth of recursion. *)
Theorem InsertParent_cycle_diverges h this o parent name :
  h !! this = Some o → ancestor_or_self h parent this →
  ∃ h', IInheritable.InsertParent h this parent = Ok h'
    ∧ (∀ f0 f1,
         Setting._getImpl f0 h name this = Ok None →
         Setting._getImpl f1 h name parent = Ok None →
         ∀ dflt fuel, Setting.Getter dflt fuel h' name this = OutOfFuel)
    ∧ (∀ f0 f1 s0 s1,
         Nullable._getImpl f0 h name this = Ok s0 → set s0 = false →
         Nullable._getImpl f1 h name parent = Ok s1 → set s1 = false →
         ∀ dflt fuel, Nullable.Getter dflt fuel h' name this = OutOfFuel).
Proof.
  intros Ho Hcyc. eexists. split; [by apply InsertParent_eq|]. split.
  - intros f0 f1 H0 H1 dflt fuel. unfold Setting.Getter.
    rewrite Setting_getImpl_walk in *.
    rewrite (walk_cycle_diverges (own_setting name) h this o parent);
      [done|done|done|done|by eexists|apply rtc_refl|by eexists].
  - intros f0 f1 s0 s1 H0 Hs0 H1 Hs1 dflt fuel. unfold Nullable.Getter.
    rewrite Nullable_getImpl_walk.
    apply Nullable_getImpl_unfound in H0; [|done].
    apply Nullable_getImpl_unfound in H1; [|done].
    rewrite (walk_cycle_diverges (own_nullable name) h this o parent);
      [done|done|done|done|by eexists|apply rtc_refl|by eexists].
Qed.

End ParentPointers.

(** ** Inheritance across objects *)

Section Sharing.
Context {V : Type} `{EqDecision V}.
Implicit Types (h : store V) (o : object V) (name : string).

Lemma update_Ok_inv h p (f : object V → result (object V)) h' :
  update h p f = Ok h' →
  ∃ o o', h !! p = Some o ∧ f o = Ok o' ∧ h' = <[p := o']> h.
Proof.
  unfold update, deref. destruct (h !! p) as [o|]; simpl; [|done].
  destruct (f o) as [o'| | |] eqn:Hf; simpl; [|done..]. intros [= <-].
  by exists o, o'.
Qed.

(** Every writing accessor rewrites its receiver only, keeps the parents
    and keeps every member of another name. *)
Lemma accessor_write_shape name this h h' :
  accessor_write name this h h' →
  ∃ o o', h !! this = Some o ∧ h' = <[this := o']> h
    ∧ _parents o' = _parents o
    ∧ ∀ name', name' ≠ name →
        setting_of o' name' = setting_of o name'
        ∧ nullable_of o' name' = nullable_of o name'.
Proof.
  intros [[v Hw]|[Hw|[[r Hw]|Hw]]].
  - apply update_Ok_inv in Hw as (o & o' & Ho & [= <-] & ->).
    exists o, (with_setting name (Some v) o). split_and!; try done.
    intros name' Hne. split; [|done]. unfold setting_of. simpl.
    by rewrite lookup_insert_ne.
  - apply update_Ok_inv in Hw as (o & o' & Ho & [= <-] & ->).
    exists o, (with_setting name None o). split_and!; try done.
    intros name' Hne. split; [|done]. unfold setting_of. simpl.
    by rewrite lookup_delete_ne.
  - pose proof Hw as Hw'.
    apply update_Ok_inv in Hw' as (o & _ & Ho & _ & _).
    destruct (Nullable_Setter_eq h name this o r Ho)
      as (o' & Hw' & _ & Hps & Hss & Hns).
    rewrite Hw' in Hw. injection Hw as <-.
    exists o, o'. split_and!; try done.
    intros name' Hne. split; [|by apply Hns]. unfold setting_of. by rewrite Hss.
  - apply update_Ok_inv in Hw as (o & o' & Ho & [= <-] & ->).
    eexists o, _. split_and!; try done.
    intros name' Hne. split; [done|]. unfold nullable_of. simpl.
    by rewrite lookup_insert_ne.
Qed.

(** X4: the object that [CreateChild] returns (with the empty hook of the
    header) sets nothing itself and reads everything through its creator:
    whatever the getter of a setting returned on the creator before the
    call, it returns on the child, and on the creator, after it. *)
Theorem CreateChild_inherits h this o name :
  h !! this = Some o →
  ∃ child h',
    IInheritable.CreateChild IInheritable._FinalizeInheritance_default h this
    = Ok (child, h')
    ∧ Setting.Has h' name child = Ok false
    ∧ Nullable.Has h' name child = Ok false
    ∧ (∀ dflt fuel v,
         Setting.Getter dflt fuel h name this = Ok v →
         Setting.Getter dflt (S fuel) h' name child = Ok v
         ∧ Setting.Getter dflt fuel h' name this = Ok v)
    ∧ (∀ dflt fuel r,
         Nullable.Getter dflt fuel h name this = Ok r →
         Nullable.Getter dflt (S fuel) h' name child = Ok r
         ∧ Nullable.Getter dflt fuel h' name this = Ok r).
Proof.
  intros Ho. eexists _, _. split; [by erewrite CreateChild_unfold|].
  set (child := fresh (dom h)).
  set (h' := <[child := with_parents [this] make_self]> h).
  assert (h ⊆ h') as Hsub by apply insert_subseteq, fresh_not_allocated.
  assert (h' !! child = Some (with_parents [this] make_self)) as Hchild
    by apply lookup_insert_eq.
  assert (setting_of (V:=V) (with_parents [this] make_self) name = None)
    as Hs by apply lookup_empty.
  assert (nullable_of (V:=V) (with_parents [this] make_self) name
          = NullableSetting_init) as Hn
    by (unfold nullable_of; simpl; by rewrite lookup_empty).
  split_and!.
  - erewrite Setting_Has_eq by done. by rewrite Hs.
  - erewrite Nullable_Has_eq by done. by rewrite Hn.
  - intros dflt fuel v. unfold Setting.Getter.
    rewrite !Setting_getImpl_walk. intros (r & Hr & [= <-])%rbind_Ok_inv.
    apply (walk_extend _ _ _ h' _ _ Hsub) in Hr. split.
    + simpl. rewrite (deref_Some _ _ _ Hchild). simpl.
      unfold own_setting at 1. rewrite Hs. simpl.
      rewrite Hr. simpl. by destruct r.
    + by rewrite Hr.
  - intros dflt fuel r. unfold Nullable.Getter.
    rewrite !Nullable_getImpl_walk.
    intros (s & (x & Hx & [= <-])%rbind_Ok_inv & [= <-])%rbind_Ok_inv.
    apply (walk_extend _ _ _ h' _ _ Hsub) in Hx. split.
    + simpl. rewrite (deref_Some _ _ _ Hchild). simpl.
      unfold own_nullable at 1. rewrite Hn. simpl. rewrite Hx. simpl.
      by destruct x.
    + by rewrite Hx.
Qed.

(** X5: parents are shared, not copied.  After the setter has run on an
    object, the getter on every object that lists it as its first parent,
    and does not set the setting itself, returns the new value. *)
Theorem Setter_seen_by_children h p po c oc name rest :
  h !! p = Some po → h !! c = Some oc → _parents oc = p :: rest →
  (∀ v : V, setting_of oc name = None →
     ∃ h', Setting.Setter h name p v = Ok h'
       ∧ ∀ dflt fuel, Setting.Getter dflt (S (S fuel)) h' name c = Ok v)
  ∧ (∀ r : IReference V, set (nullable_of oc name) = false →
     ∃ h', Nullable.Setter h name p r = Ok h'
       ∧ ∀ dflt fuel, Nullable.Getter dflt (S (S fuel)) h' name c = Ok r).
Proof.
  intros Hp Hc Hps. split.
  - intros v Hunset. eexists. split; [by apply Setting_Setter_eq|].
    intros dflt fuel. unfold Setting.Getter.
    set (h' := <[p := with_setting name (Some v) po]> h).
    assert (h' !! p = Some (with_setting name (Some v) po)) as Hp'
      by apply lookup_insert_eq.
    assert (setting_of (with_setting name (Some v) po) name = Some v) as Hv
      by apply lookup_insert_eq.
    destruct (decide (c = p)) as [->|Hne].
    + erewrite Setting_getImpl_S by done. by rewrite Hv.
    + assert (h' !! c = Some oc) as Hc'
        by (unfold h'; by rewrite lookup_insert_ne).
      erewrite Setting_getImpl_S by done. rewrite Hunset, Hps.
      cbn [Setting._getImpl_parents].
      erewrite Setting_getImpl_S by done. by rewrite Hv.
  - intros r Hunset.
    destruct (Nullable_Setter_eq h name p po r Hp) as (o' & -> & Hr & _).
    eexists. split; [done|]. intros dflt fuel. unfold Nullable.Getter.
    set (h' := <[p := o']> h).
    assert (h' !! p = Some o') as Hp' by apply lookup_insert_eq.
    destruct (decide (c = p)) as [->|Hne].
    + erewrite Nullable_getImpl_S by done. by rewrite Hr.
    + assert (h' !! c = Some oc) as Hc'
        by (unfold h'; by rewrite lookup_insert_ne).
      erewrite Nullable_getImpl_S by done. rewrite Hunset, Hps.
      cbn [Nullable._getImpl_parents].
      erewrite Nullable_getImpl_S by done. by rewrite Hr.
Qed.

(** X6: the settings of an object are independent.  A setter or [Clear]
    of one setting changes no parent list, and leaves [Has] and the getter
    of every setting of another name as they were, on every object. *)
Theorem accessor_write_other_names h h' this name name' :
  accessor_write name this h h' → name' ≠ name →
  ∀ q,
    _parents <$> h' !! q = _parents <$> h !! q
    ∧ Setting.Has h' name' q = Setting.Has h name' q
    ∧ Nullable.Has h' name' q = Nullable.Has h name' q
    ∧ (∀ dflt fuel, Setting.Getter dflt fuel h' name' q
                    = Setting.Getter dflt fuel h name' q)
    ∧ (∀ dflt fuel, Nullable.Getter dflt fuel h' name' q
                    = Nullable.Getter dflt fuel h name' q).
Proof.
  intros (o & o' & Ho & -> & Hps & Hsame)%accessor_write_shape Hne q.
  destruct (Hsame name' Hne) as [Hs Hn].
  assert (∀ p, ∃ op op',
    (<[this := o']> h !! p = Some op ∧ h !! p = Some op'
     ∧ _parents op = _parents op' ∧ setting_of op name' = setting_of op' name'
     ∧ nullable_of op name' = nullable_of op' name')
    ∨ (<[this := o']> h !! p = None ∧ h !! p = None)) as Hview.
  { intros p. destruct (decide (p = this)) as [->|Hp].
    - exists o', o. left. by rewrite lookup_insert_eq.
    - rewrite lookup_insert_ne by done. destruct (h !! p) as [op|].
      + exists op, op. by left.
      + exists o, o. by right. }
  split_and!.
  - destruct (Hview q) as (op & op' & [(-> & -> & Hp & _)|[-> ->]]);
      simpl; [by rewrite Hp|done].
  - unfold Setting.Has, deref.
    destruct (Hview q) as (op & op' & [(-> & -> & _ & Hp & _)|[-> ->]]);
      simpl; [by rewrite Hp|done].
  - unfold Nullable.Has, deref.
    destruct (Hview q) as (op & op' & [(-> & -> & _ & _ & Hp)|[-> ->]]);
      simpl; [by rewrite Hp|done].
  - intros dflt fuel. unfold Setting.Getter. rewrite !Setting_getImpl_walk.
    by rewrite (walk_insert_same_view (own_setting name') _ _ _ o).
  - intros dflt fuel. unfold Nullable.Getter. rewrite !Nullable_getImpl_walk.
    rewrite (walk_insert_same_view (own_nullable name') _ _ _ o); [done..|].
    unfold own_nullable. by rewrite Hn.
Qed.

(** X7: a write goes up to nobody.  A setter or [Clear] on an object
    leaves [Has] and the getter of every setting as they were on every
    object that does not have it among its ancestors: on its parents, in a
    graph without cycles, and on unrelated objects. *)
Theorem accessor_write_not_seen_above h h' c name q :
  accessor_write name c h h' → ¬ ancestor_or_self h q c →
  ∀ name',
    Setting.Has h' name' q = Setting.Has h name' q
    ∧ Nullable.Has h' name' q = Nullable.Has h name' q
    ∧ (∀ dflt fuel, Setting.Getter dflt fuel h' name' q
                    = Setting.Getter dflt fuel h name' q)
    ∧ (∀ dflt fuel, Nullable.Getter dflt fuel h' name' q
                    = Nullable.Getter dflt fuel h name' q).
Proof.
  intros (o & o' & Ho & -> & _)%accessor_write_shape Hnot name'.
  assert (q ≠ c) as Hne by (intros ->; apply Hnot, rtc_refl).
  split_and!.
  - unfold Setting.Has, deref. by rewrite lookup_insert_ne.
  - unfold Nullable.Has, deref. by rewrite lookup_insert_ne.
  - intros dflt fuel. unfold Setting.Getter. rewrite !Setting_getImpl_walk.
    by rewrite walk_insert_unreached.
  - intros dflt fuel. unfold Nullable.Getter. rewrite !Nullable_getImpl_walk.
    by rewrite walk_insert_unreached.
Qed.

(** X8: the getter makes up no value.  What it returns is the declared
    default or the explicit value of the object or of one of its
    ancestors. *)
Theorem Getter_provenance h name this fuel :
  (∀ dflt v,
     Setting.Getter dflt fuel h name this = Ok v →
     v = dflt
     ∨ ∃ q oq, ancestor_or_self h this q ∧ h !! q = Some oq
               ∧ setting_of oq name = Some v)
  ∧ (∀ dflt r,
     Nullable.Getter dflt fuel h name this = Ok r →
     r = dflt
     ∨ ∃ q oq, ancestor_or_self h this q ∧ h !! q = Some oq
               ∧ nullable_of oq name = {| setting := r; set := true |}).
Proof.
  split.
  - intros dflt v. unfold Setting.Getter. rewrite Setting_getImpl_walk.
    intros ([w|] & Hw & [= <-])%rbind_Ok_inv; [|by left]. right.
    by apply walk_sound in Hw.
  - intros dflt r. unfold Nullable.Getter. rewrite Nullable_getImpl_walk.
    intros (s & ([x|] & Hx & [= <-])%rbind_Ok_inv & [= <-])%rbind_Ok_inv;
      [|by left].
    apply walk_sound in Hx as (q & oq & Hq & Hoq & Hown).
    apply own_nullable_set in Hown as [Hset ->]. simpl. rewrite Hset.
    right. exists q, oq. split_and!; [done|done|].
    destruct (nullable_of oq name) as [sv sb]. simpl in *. by subst.
Qed.

End Sharing.

(** ** A child's own values *)

Section ChildWrites.
Context {V : Type} `{EqDecision V}.
Implicit Types (h : store V) (o : object V) (name : string).

(** X11: what is written on a child stays on the child.  After
    [CreateChild] (with the empty hook of the header) and a setter or
    [Clear] of any setting on the child, the getter of every setting
    returns on the creator what it returned before the child was made. *)
Theorem child_write_not_seen_by_creator h this o child h1 h2 name name' :
  h !! this = Some o →
  IInheritable.CreateChild IInheritable._FinalizeInheritance_default h this
  = Ok (child, h1) →
  accessor_write name child h1 h2 →
  (∀ dflt fuel v,
     Setting.Getter dflt fuel h name' this = Ok v →
     Setting.Getter dflt fuel h2 name' this = Ok v)
  ∧ (∀ dflt fuel r,
     Nullable.Getter dflt fuel h name' this = Ok r →
     Nullable.Getter dflt fuel h2 name' this = Ok r).
Proof.
  intros Ho Hc (oc & oc' & _ & -> & _)%accessor_write_shape.
  erewrite CreateChild_unfold in Hc by done. simpl in Hc.
  injection Hc as <- <-. rewrite insert_insert_eq.
  assert (h ⊆ <[fresh (dom h) := oc']> h) as Hsub
    by apply insert_subseteq, fresh_not_allocated.
  split.
  - intros dflt fuel v. unfold Setting.Getter.
    rewrite !Setting_getImpl_walk. intros (r & Hr & [= <-])%rbind_Ok_inv.
    by rewrite (walk_extend _ _ _ _ _ _ Hsub Hr).
  - intros dflt fuel r. unfold Nullable.Getter.
    rewrite !Nullable_getImpl_walk.
    intros (s & (x & Hx & [= <-])%rbind_Ok_inv & [= <-])%rbind_Ok_inv.
    by rewrite (walk_extend _ _ _ _ _ _ Hsub Hx).
Qed.

End ChildWrites.

(** ** The further properties on the example stores *)

Lemma parents_below_rtc {V : Type} (h : store V) p q :
  parents_below h → rtc (parent_of h) p q → (q ≤ p)%positive.
Proof.
  intros Hb [->|Htc]%rtc_tc; [lia|].
  apply (parents_below_tc _ _ _ Hb) in Htc. lia.
Qed.

Lemma layered_below : parents_below layered.
Proof. by apply (bool_decide_unpack _). Qed.

Lemma chain3_leaf_reaches_root : ancestor_or_self chain3 3 1.
Proof.
  eapply rtc_l; [eexists; split; [reflexivity|by left]|].
  eapply rtc_l; [eexists; split; [reflexivity|by left]|].
  apply rtc_refl.
Qed.

Lemma InsertParent_appends_witness :
  ∃ o', IInheritable.InsertParent two_parents 1 4
        = Ok (<[1%positive := o']> two_parents)
    ∧ _parents o' = [2%positive; 3%positive; 4%positive]
    ∧ IInheritable.InsertParent_at two_parents 1 2 4
      = IInheritable.InsertParent two_parents 1 4.
Proof.
  destruct (InsertParent_appends two_parents 1
              (mkObject [2%positive; 3%positive] ∅ ∅) 4 eq_refl)
    as (o' & H1 & H2 & _ & _ & _ & _ & _ & H8).
  exists o'. split_and!; [exact H1|exact H2|exact H8].
Defined.

Lemma InsertParent_lowest_priority_witness :
  ∃ h', IInheritable.InsertParent layered 4 1 = Ok h'
    ∧ Setting.Getter 0 3 h' "P" 4 = Ok 20.
Proof.
  destruct (InsertParent_lowest_priority layered 4
              (mkObject [2%positive; 3%positive] ∅ ∅) 1 "P" eq_refl
              (layered_acyclic 4))
    as (h' & H1 & H2 & _).
  exists h'. split; [exact H1|]. apply (H2 0 3 20). reflexivity.
Defined.

Lemma InsertParent_at_front_overrides_witness :
  ∃ h', IInheritable.InsertParent_at layered 4 0 3 = Ok h'
    ∧ ∀ fuel, Setting.Getter 0 (S (S fuel)) h' "P" 4 = Ok 30.
Proof.
  destruct (InsertParent_at_front_overrides layered 4
              (mkObject [2%positive; 3%positive] ∅ ∅) 3
              (mkObject [1%positive] {[ "P" := 30 ]}
                 {[ "Q" := mkNullable (Some 3) true ]}) "P" eq_refl eq_refl)
    as (h' & H1 & H2 & _).
  exists h'. split; [exact H1|]. intros fuel. apply (H2 0 fuel 30); reflexivity.
Defined.

Lemma CreateChild_inherits_witness :
  ∃ child h',
    IInheritable.CreateChild IInheritable._FinalizeInheritance_default
      layered 4 = Ok (child, h')
    ∧ Setting.Has h' "P" child = Ok false
    ∧ Setting.Getter 0 4 h' "P" child = Ok 20.
Proof.
  destruct (CreateChild_inherits layered 4
              (mkObject [2%positive; 3%positive] ∅ ∅) "P" eq_refl)
    as (child & h' & H1 & H2 & _ & H4 & _).
  exists child, h'. split_and!; [exact H1|exact H2|].
  apply (H4 0 3 20). reflexivity.
Defined.

Lemma Setter_seen_by_children_witness :
  ∃ h', Setting.Setter chain3 "P" 2 20 = Ok h'
    ∧ ∀ dflt fuel, Setting.Getter dflt (S (S fuel)) h' "P" 3 = Ok 20.
Proof.
  apply (Setter_seen_by_children chain3 2 (mkObject [1%positive] ∅ ∅) 3
           (mkObject [2%positive] ∅ {[ "Q" := mkNullable (Some 5) false ]})
           "P" []); reflexivity.
Defined.

Lemma accessor_write_other_names_witness :
  ∃ h', Setting.Setter layered "P" 4 7 = Ok h'
    ∧ Nullable.Getter (Some 99) 3 h' "Q" 4
      = Nullable.Getter (Some 99) 3 layered "Q" 4.
Proof.
  eexists. split; [by apply Setting_Setter_eq|].
  apply (accessor_write_other_names layered _ 4 "P" "Q").
  - left. exists 7. by apply Setting_Setter_eq.
  - discriminate.
Defined.

Lemma accessor_write_not_seen_above_witness :
  ∃ h', Setting.Setter layered "P" 4 7 = Ok h'
    ∧ Setting.Getter 0 3 h' "P" 2 = Setting.Getter 0 3 layered "P" 2.
Proof.
  eexists. split; [by apply Setting_Setter_eq|].
  apply (accessor_write_not_seen_above layered _ 4 "P" 2).
  - left. exists 7. by apply Setting_Setter_eq.
  - intros Hrtc. apply (parents_below_rtc _ _ _ layered_below) in Hrtc. lia.
Defined.

Lemma Getter_provenance_witness :
  20 = 0
  ∨ ∃ q oq, ancestor_or_self layered 4 q ∧ layered !! q = Some oq
            ∧ setting_of oq "P" = Some 20.
Proof. apply (Getter_provenance layered "P" 4 3). reflexivity. Defined.

Lemma InsertParent_unchecked_pointer_witness :
  (∃ h', IInheritable.InsertParent_at chain3 3 0 9 = Ok h'
     ∧ ∀ dflt fuel, Setting.Getter dflt (S (S fuel)) h' "P" 3 = Undefined)
  ∧ (∃ h', IInheritable.InsertParent chain3 3 9 = Ok h'
     ∧ ∀ dflt, Setting.Getter dflt 5 h' "Z" 3 = Undefined).
Proof.
  destruct (InsertParent_unchecked_pointer chain3 3
              (mkObject [2%positive] ∅ {[ "Q" := mkNullable (Some 5) false ]})
              9 "P" eq_refl eq_refl)
    as [(h1 & H1 & H2 & _) _].
  destruct (InsertParent_unchecked_pointer chain3 3
              (mkObject [2%positive] ∅ {[ "Q" := mkNullable (Some 5) false ]})
              9 "Z" eq_refl eq_refl)
    as [_ (h2 & H3 & H4 & _)].
  split.
  - exists h1. split; [exact H1|]. intros dflt fuel. by apply H2.
  - exists h2. split; [exact H3|]. intros dflt.
    apply (H4 (chain3_acyclic 3) dflt 3). reflexivity.
Defined.

Lemma InsertParent_cycle_diverges_witness :
  ∃ h', IInheritable.InsertParent chain3 1 3 = Ok h'
    ∧ ∀ dflt fuel, Setting.Getter dflt fuel h' "Z" 1 = OutOfFuel.
Proof.
  destruct (InsertParent_cycle_diverges chain3 1
              (mkObject [] {[ "P" := 10 ]} ∅) 3 "Z" eq_refl
              chain3_leaf_reaches_root)
    as (h' & H1 & H2 & _).
  exists h'. split; [exact H1|]. apply (H2 1 3); reflexivity.
Defined.

Lemma child_write_not_seen_by_creator_witness :
  ∃ child h1 h2,
    IInheritable.CreateChild IInheritable._FinalizeInheritance_default
      layered 4 = Ok (child, h1)
    ∧ Setting.Setter h1 "P" child 7 = Ok h2
    ∧ Setting.Getter 0 3 h2 "P" 4 = Ok 20.
Proof.
  pose proof (CreateChild_unfold IInheritable._FinalizeInheritance_default
                layered 4 (mkObject [2%positive; 3%positive] ∅ ∅) eq_refl)
    as Hc.
  eexists _, _, _. split; [exact Hc|].
  split; [by apply Setting_Setter_eq|].
  apply (child_write_not_seen_by_creator layered 4
           (mkObject [2%positive; 3%positive] ∅ ∅) _ _ _ "P" "P" eq_refl Hc).
  - left. exists 7. by apply Setting_Setter_eq.
  - reflexivity.
Defined.
